(** * CSS selector builder of [src/05-objects-tasks.js]

    A shallow embedding of the class [CssSelector] and of the facade
    [cssSelectorBuilder].  JavaScript objects are mutable and are passed
    by reference, so the embedding threads an explicit store of
    [CssSelector] objects: a handle is an index into the store, [new]
    allocates, and every method is a computation over the store that
    either returns a value or throws one of the two errors of the class. *)

From Stdlib Require Import ZArith Lia List Sorted.
From stdpp Require Import base option list sorting gmap strings.

Local Open Scope Z_scope.

(** ** Property names and the rank table *)

(** The six property names used as keys of [orderValue] and [repeats] and
    as the elements of the array [order]. *)
Inductive Kind : Set :=
  | KElement | KId | KClass | KAttr | KPseudoClass | KPseudoElement.

#[global] Instance Kind_eq_dec : EqDecision Kind.
Proof. solve_decision. Defined.

Definition Kind_code (k : Kind) : nat :=
  match k with
  | KElement => 0 | KId => 1 | KClass => 2
  | KAttr => 3 | KPseudoClass => 4 | KPseudoElement => 5
  end%nat.

Definition Kind_decode (n : nat) : Kind :=
  match n with
  | 0 => KElement | 1 => KId | 2 => KClass
  | 3 => KAttr | 4 => KPseudoClass | _ => KPseudoElement
  end%nat.

#[global] Instance Kind_countable : Countable Kind :=
  inj_countable' Kind_code Kind_decode
    ltac:(intros []; reflexivity).

(** The JavaScript spelling of each property name. *)
Definition key (k : Kind) : string :=
  match k with
  | KElement => "element"
  | KId => "id"
  | KClass => "class"
  | KAttr => "attr"
  | KPseudoClass => "pseudoClass"
  | KPseudoElement => "pseudoElement"
  end.

(** [this.orderValue], set once by the constructor and never written
    again. *)
Definition orderValue (k : Kind) : Z :=
  match k with
  | KElement => 0
  | KId => 1
  | KClass => 2
  | KAttr => 3
  | KPseudoClass => 4
  | KPseudoElement => 5
  end.

(** ** Errors *)

(** Both errors are plain [Error] objects; they differ by their message. *)
Inductive Error : Set :=
  | DuplicateFragmentError
  | OrderViolationError.

Definition message (e : Error) : string :=
  match e with
  | DuplicateFragmentError =>
      "Element, id and pseudo-element should not occur more then one time inside the selector"
  | OrderViolationError =>
      "Selector parts should be arranged in the following order: element, id, class, attribute, pseudo-class, pseudo-element"
  end.

(** ** Objects and the store *)

Record Obj : Type := mkObj {
  selector : string;           (* this.selector *)
  repeats : gmap Kind bool;    (* this.repeats, an object used as a map *)
  order : list Kind            (* this.order *)
}.

Abbreviation loc := nat.
Abbreviation Heap := (list Obj).

Inductive Outcome (A : Type) : Type :=
  | Ok (a : A)
  | Throw (e : Error)
  | Dangling.   (* a handle outside the store; no JavaScript run has one *)
Arguments Ok {A} a.
Arguments Throw {A} e.
Arguments Dangling {A}.

Definition M (A : Type) : Type := Heap → Outcome A * Heap.

#[global] Instance M_ret : MRet M := λ A a h, (Ok a, h).

#[global] Instance M_bind : MBind M := λ A B f m h,
  match m h with
  | (Ok a, h') => f a h'
  | (Throw e, h') => (Throw e, h')
  | (Dangling, h') => (Dangling, h')
  end.

Definition throw {A} (e : Error) : M A := λ h, (Throw e, h).

Definition load (l : loc) : M Obj := λ h,
  match h !! l with
  | Some o => (Ok o, h)
  | None => (Dangling, h)
  end.

Definition store (l : loc) (o : Obj) : M unit := λ h,
  match h !! l with
  | Some _ => (Ok tt, <[l := o]> h)
  | None => (Dangling, h)
  end.

(** Reads and writes of the three fields. *)
Definition get_selector (l : loc) : M string :=
  o ← load l; mret (selector o).

Definition set_selector (l : loc) (s : string) : M unit :=
  o ← load l; store l (mkObj s (repeats o) (order o)).

(** [this.repeats.k] in a condition: a missing property is [undefined],
    which is falsy. *)
Definition truthy (v : option bool) : bool :=
  match v with
  | Some b => b
  | None => false
  end.

Definition get_repeats (l : loc) (k : Kind) : M bool :=
  o ← load l; mret (truthy (repeats o !! k)).

Definition set_repeats (l : loc) (k : Kind) (b : bool) : M unit :=
  o ← load l; store l (mkObj (selector o) (<[k := b]> (repeats o)) (order o)).

Definition get_order (l : loc) : M (list Kind) :=
  o ← load l; mret (order o).

Definition push_order (l : loc) (k : Kind) : M unit :=
  o ← load l; store l (mkObj (selector o) (repeats o) (order o ++ [k])).

(** ** class CssSelector *)

Module CssSelector.

(** The fields [constructor()] sets; the table [orderValue] is the
    constant above. *)
Definition init : Obj := mkObj "" ∅ [].

(** [new CssSelector()]: a fresh object at the end of the store. *)
Definition new : M loc := λ h, (Ok (length h), h ++ [init]).

(** The body of the [forEach] callback of [checkOrder]. *)
Definition checkOrder_step (value : Kind) (isInOrder : bool) (el : Kind)
  : bool :=
  if orderValue value <? orderValue el then false else isInOrder.

Definition checkOrder (this : loc) (value : Kind) : M bool :=
  ord ← get_order this;
  mret (fold_left (checkOrder_step value) ord true).

Definition element (this : loc) (element : string) : M loc :=
  dup ← get_repeats this KElement;
  if dup : bool then throw DuplicateFragmentError else
  ok ← checkOrder this KElement;
  if negb ok then throw OrderViolationError else
  set_repeats this KElement true;;
  s ← get_selector this;
  set_selector this (s +:+ element);;
  push_order this KElement;;
  mret this.

Definition id (this : loc) (id : string) : M loc :=
  dup ← get_repeats this KId;
  if dup : bool then throw DuplicateFragmentError else
  ok ← checkOrder this KId;
  if negb ok then throw OrderViolationError else
  set_repeats this KId true;;
  s ← get_selector this;
  set_selector this (s +:+ "#" +:+ id);;
  push_order this KId;;
  mret this.

Definition class (this : loc) (className : string) : M loc :=
  ok ← checkOrder this KClass;
  if negb ok then throw OrderViolationError else
  s ← get_selector this;
  set_selector this (s +:+ "." +:+ className);;
  push_order this KClass;;
  mret this.

Definition attr (this : loc) (value : string) : M loc :=
  ok ← checkOrder this KAttr;
  if negb ok then throw OrderViolationError else
  s ← get_selector this;
  set_selector this (s +:+ "[" +:+ value +:+ "]");;
  push_order this KAttr;;
  mret this.

Definition pseudoClass (this : loc) (value : string) : M loc :=
  ok ← checkOrder this KPseudoClass;
  if negb ok then throw OrderViolationError else
  s ← get_selector this;
  set_selector this (s +:+ ":" +:+ value);;
  push_order this KPseudoClass;;
  mret this.

Definition pseudoElement (this : loc) (value : string) : M loc :=
  dup ← get_repeats this KPseudoElement;
  if dup : bool then throw DuplicateFragmentError else
  ok ← checkOrder this KPseudoElement;
  if negb ok then throw OrderViolationError else
  set_repeats this KPseudoElement true;;
  s ← get_selector this;
  set_selector this (s +:+ "::" +:+ value);;
  push_order this KPseudoElement;;
  mret this.

Definition combine (this selector1 : loc) (combinator : string)
    (selector2 : loc) : M loc :=
  s1 ← get_selector selector1;
  s2 ← get_selector selector2;
  set_selector this (s1 +:+ " " +:+ combinator +:+ " " +:+ s2);;
  mret this.

Definition stringify (this : loc) : M string :=
  get_selector this.

End CssSelector.

(** ** const cssSelectorBuilder *)

Module cssSelectorBuilder.

Definition element (value : string) : M loc :=
  selector ← CssSelector.new; CssSelector.element selector value.

Definition id (value : string) : M loc :=
  selector ← CssSelector.new; CssSelector.id selector value.

Definition class (value : string) : M loc :=
  selector ← CssSelector.new; CssSelector.class selector value.

Definition attr (value : string) : M loc :=
  selector ← CssSelector.new; CssSelector.attr selector value.

Definition pseudoClass (value : string) : M loc :=
  selector ← CssSelector.new; CssSelector.pseudoClass selector value.

Definition pseudoElement (value : string) : M loc :=
  selector ← CssSelector.new; CssSelector.pseudoElement selector value.

Definition combine (selector1 : loc) (combinator : string)
    (selector2 : loc) : M loc :=
  selector ← CssSelector.new;
  CssSelector.combine selector selector1 combinator selector2.

End cssSelectorBuilder.

(** ** Calls, chains and client actions *)

(** A fragment call: the method chosen and its argument. *)
Definition Call : Type := Kind * string.

(** [this.k(v)] for the method named by [k]. *)
Definition invoke (this : loc) (c : Call) : M loc :=
  match c.1 with
  | KElement => CssSelector.element this c.2
  | KId => CssSelector.id this c.2
  | KClass => CssSelector.class this c.2
  | KAttr => CssSelector.attr this c.2
  | KPseudoClass => CssSelector.pseudoClass this c.2
  | KPseudoElement => CssSelector.pseudoElement this c.2
  end.

(** [cssSelectorBuilder.k(v)]. *)
Definition facade (c : Call) : M loc :=
  match c.1 with
  | KElement => cssSelectorBuilder.element c.2
  | KId => cssSelectorBuilder.id c.2
  | KClass => cssSelectorBuilder.class c.2
  | KAttr => cssSelectorBuilder.attr c.2
  | KPseudoClass => cssSelectorBuilder.pseudoClass c.2
  | KPseudoElement => cssSelectorBuilder.pseudoElement c.2
  end.

(** A fluent chain [this.k1(v1).k2(v2)...]: each call is made on the handle
    the previous one returned, and the first throw ends the chain. *)
Fixpoint chain (this : loc) (cs : list Call) : M loc :=
  match cs with
  | [] => mret this
  | c :: cs' => this' ← invoke this c; chain this' cs'
  end.

(** [cssSelectorBuilder.k(v).k1(v1)...stringify()]. *)
Definition build (c : Call) (cs : list Call) : M string :=
  l ← facade c; l' ← chain l cs; CssSelector.stringify l'.

(** What a client can do with the handles it holds. *)
Inductive Action : Type :=
  | AFragment (this : loc) (c : Call)
  | ACombine (this selector1 : loc) (combinator : string) (selector2 : loc)
  | AStringify (this : loc)
  | ACheckOrder (this : loc) (value : Kind)
  | ABuilderFragment (c : Call)
  | ABuilderCombine (selector1 : loc) (combinator : string) (selector2 : loc).

Definition perform (a : Action) : M unit :=
  match a with
  | AFragment this c => invoke this c;; mret tt
  | ACombine this s1 comb s2 => CssSelector.combine this s1 comb s2;; mret tt
  | AStringify this => CssSelector.stringify this;; mret tt
  | ACheckOrder this k => CssSelector.checkOrder this k;; mret tt
  | ABuilderFragment c => facade c;; mret tt
  | ABuilderCombine s1 comb s2 => cssSelectorBuilder.combine s1 comb s2;; mret tt
  end.

(** The store after [try { a } catch (e) {}]. *)
Definition attempt (h : Heap) (a : Action) : Heap := (perform a h).2.

(** The store after a sequence of actions, each with its error caught. *)
Definition attempt_all (acts : list Action) (h : Heap) : Heap :=
  fold_left attempt acts h.

(** ** Vocabulary of the specification *)

(** The kinds that may occur once per node. *)
Definition singleton (k : Kind) : bool :=
  match k with
  | KElement | KId | KPseudoElement => true
  | KClass | KAttr | KPseudoClass => false
  end.

(** The textual form of a fragment, as the specification lists them:
    [elem], [#id], [.cls], [[attr]], [:pseudo], [::pseudo]. *)
Definition template (c : Call) : string :=
  match c.1 with
  | KElement => c.2
  | KId => "#" +:+ c.2
  | KClass => "." +:+ c.2
  | KAttr => "[" +:+ c.2 +:+ "]"
  | KPseudoClass => ":" +:+ c.2
  | KPseudoElement => "::" +:+ c.2
  end.

(** Concatenation with no separators. *)
Definition concat_text (ss : list string) : string :=
  fold_right String.append "" ss.

(** The ranks recorded by the array [order]. *)
Definition ranks (ks : list Kind) : list Z := map orderValue ks.

(** The new rank is not below any rank already appended. *)
Definition in_order (k : Kind) (ks : list Kind) : Prop :=
  Forall (λ el, orderValue el <= orderValue k) ks.

(** The new rank is strictly below some rank already appended. *)
Definition out_of_order (k : Kind) (ks : list Kind) : Prop :=
  Exists (λ el, orderValue k < orderValue el) ks.

(** The number of times [k] was appended. *)
Definition occurrences (k : Kind) (ks : list Kind) : nat :=
  count_occ Kind_eq_dec ks k.

(** The invariant of a node: ranks never decrease along [order], a
    singleton kind was appended at most once, and [repeats] flags exactly
    the singleton kinds that were appended and nothing else. *)
Record node_inv (o : Obj) : Prop := mkInv {
  inv_sorted : StronglySorted Z.le (ranks (order o));
  inv_once : ∀ k, singleton k = true → (occurrences k (order o) ≤ 1)%nat;
  inv_seen : ∀ k, truthy (repeats o !! k) = true ↔
                  singleton k = true ∧ k ∈ order o
}.

(** The state a successful [this.k(v)] leaves in the node. *)
Definition appended (o : Obj) (c : Call) : Obj :=
  mkObj (selector o +:+ template c)
        (if singleton c.1 then <[c.1 := true]> (repeats o) else repeats o)
        (order o ++ [c.1]).

(** ** Auxiliary definitions *)

(** The loop of [checkOrder] on a given [order]. *)
Definition passes (k : Kind) (ks : list Kind) : bool :=
  fold_left (CssSelector.checkOrder_step k) ks true.

(** The store a chain started through the facade leaves, from the empty
    store. *)
Definition store_after (c : Call) (cs : list Call) : Heap :=
  ((l ← facade c; chain l cs) []).2.

(** The text of [cssSelectorBuilder.combine(s1, comb, s2)]. *)
Definition combined_text (t1 comb t2 : string) : string :=
  t1 +:+ " " +:+ comb +:+ " " +:+ t2.

(** ** How an action changes the store *)

(** The node an action writes to, if it writes to an existing one. *)
Definition target (a : Action) : option loc :=
  match a with
  | AFragment this _ => Some this
  | ACombine this _ _ _ => Some this
  | AStringify _ | ACheckOrder _ _
  | ABuilderFragment _ | ABuilderCombine _ _ _ => None
  end.

(** What can happen to one object during one action. *)
Inductive obj_step (o : Obj) : Obj → Prop :=
  | obj_kept : obj_step o o
  | obj_appended c :
      singleton c.1 && truthy (repeats o !! c.1) = false →
      passes c.1 (order o) = true →
      obj_step o (appended o c)
  | obj_text s : obj_step o (mkObj s (repeats o) (order o)).

(** What can happen to the store during one action. *)
Inductive heap_step (a : Action) (h : Heap) : Heap → Prop :=
  | heap_kept : heap_step a h h
  | heap_updated l o o' :
      target a = Some l → h !! l = Some o → obj_step o o' →
      heap_step a h (<[l := o']> h)
  | heap_grown o' :
      target a = None → obj_step CssSelector.init o' →
      heap_step a h (h ++ [o']).

(** ** Client expressions with nested combinations *)

(** A client expression: a chain started through the facade, or
    [cssSelectorBuilder.combine(left, combinator, right)] of two such
    expressions. *)
Inductive Selector : Type :=
  | Compound (c : Call) (cs : list Call)
  | Combined (selector1 : Selector) (combinator : string)
      (selector2 : Selector).

(** Evaluation of the expression; JavaScript evaluates the arguments of a
    call from left to right, then makes the call. *)
Fixpoint construct (e : Selector) : M loc :=
  match e with
  | Compound c cs => l ← facade c; chain l cs
  | Combined selector1 combinator selector2 =>
      a ← construct selector1;
      b ← construct selector2;
      cssSelectorBuilder.combine a combinator b
  end.

(** The text the expression stands for. *)
Fixpoint rendering (e : Selector) : string :=
  match e with
  | Compound c cs => concat_text (map template (c :: cs))
  | Combined selector1 combinator selector2 =>
      combined_text (rendering selector1) combinator (rendering selector2)
  end.

(** Every chain of the expression is in rank order and repeats no singleton
    kind. *)
Fixpoint well_ordered (e : Selector) : Prop :=
  match e with
  | Compound c cs =>
      Sorted Z.le (ranks (map fst (c :: cs))) ∧
      ∀ k, singleton k = true → (occurrences k (map fst (c :: cs)) ≤ 1)%nat
  | Combined selector1 _ selector2 =>
      well_ordered selector1 ∧ well_ordered selector2
  end.

(** * Lemmas *)

(** The six property names are pairwise distinct, so the enumeration
    [Kind] stands for them faithfully. *)
Lemma key_inj (k1 k2 : Kind) : key k1 = key k2 → k1 = k2.
Proof. by destruct k1, k2. Qed.

(** ** The store primitives on an allocated handle *)

Section Primitives.
Variables (h : Heap) (l : loc) (o : Obj).
Hypothesis Hl : h !! l = Some o.

Lemma load_ok : load l h = (Ok o, h).
Proof using Hl. unfold load. by rewrite Hl. Qed.

Lemma store_ok o' : store l o' h = (Ok tt, <[l := o']> h).
Proof using Hl. unfold store. by rewrite Hl. Qed.

Lemma lookup_updated o' : <[l := o']> h !! l = Some o'.
Proof using Hl.
  apply list_lookup_insert_eq. by eapply lookup_lt_Some.
Qed.

Lemma get_selector_ok : get_selector l h = (Ok (selector o), h).
Proof using Hl.
  unfold get_selector, mbind, M_bind. by rewrite load_ok.
Qed.

Lemma set_selector_ok s :
  set_selector l s h = (Ok tt, <[l := mkObj s (repeats o) (order o)]> h).
Proof using Hl.
  unfold set_selector, mbind, M_bind. rewrite load_ok. apply store_ok.
Qed.

Lemma get_repeats_ok k :
  get_repeats l k h = (Ok (truthy (repeats o !! k)), h).
Proof using Hl.
  unfold get_repeats, mbind, M_bind. by rewrite load_ok.
Qed.

Lemma set_repeats_ok k b :
  set_repeats l k b h =
  (Ok tt, <[l := mkObj (selector o) (<[k := b]> (repeats o)) (order o)]> h).
Proof using Hl.
  unfold set_repeats, mbind, M_bind. rewrite load_ok. apply store_ok.
Qed.

Lemma get_order_ok : get_order l h = (Ok (order o), h).
Proof using Hl.
  unfold get_order, mbind, M_bind. by rewrite load_ok.
Qed.

Lemma push_order_ok k :
  push_order l k h =
  (Ok tt, <[l := mkObj (selector o) (repeats o) (order o ++ [k])]> h).
Proof using Hl.
  unfold push_order, mbind, M_bind. rewrite load_ok. apply store_ok.
Qed.

Lemma checkOrder_ok k :
  CssSelector.checkOrder l k h =
  (Ok (fold_left (CssSelector.checkOrder_step k) (order o) true), h).
Proof using Hl.
  unfold CssSelector.checkOrder, mbind, M_bind. by rewrite get_order_ok.
Qed.
End Primitives.

(** On a handle outside the store every primitive stops, store untouched. *)
Lemma load_dangling (h : Heap) (l : loc) :
  h !! l = None → load l h = (Dangling, h).
Proof. intros E. unfold load. by rewrite E. Qed.

(** ** What the loop of [checkOrder] computes *)

Lemma checkOrder_step_false k ks :
  fold_left (CssSelector.checkOrder_step k) ks false = false.
Proof.
  induction ks as [|el ks IH]; simpl; [done|].
  unfold CssSelector.checkOrder_step at 2. by destruct (_ <? _).
Qed.

Lemma checkOrder_loop_true k ks :
  fold_left (CssSelector.checkOrder_step k) ks true = true ↔ in_order k ks.
Proof.
  unfold in_order. induction ks as [|el ks IH]; simpl.
  - split; [constructor | done].
  - unfold CssSelector.checkOrder_step at 2.
    destruct (orderValue k <? orderValue el) eqn:E.
    + rewrite checkOrder_step_false. apply Z.ltb_lt in E.
      split; [done|]. intros HF. apply Forall_cons in HF as [? _]. lia.
    + apply Z.ltb_ge in E. rewrite IH. split.
      * intros HF. by constructor.
      * intros HF. by apply Forall_cons in HF as [_ ?].
Qed.

Lemma checkOrder_loop_false k ks :
  fold_left (CssSelector.checkOrder_step k) ks true = false ↔
  out_of_order k ks.
Proof.
  unfold out_of_order. induction ks as [|el ks IH]; simpl.
  - split; [done | by intros ?%Exists_nil].
  - unfold CssSelector.checkOrder_step at 2.
    destruct (orderValue k <? orderValue el) eqn:E.
    + rewrite checkOrder_step_false. apply Z.ltb_lt in E.
      split; [|done]. intros _. by left.
    + apply Z.ltb_ge in E. rewrite IH. split.
      * intros HE. by right.
      * intros HE. apply Exists_cons in HE as [?|?]; [lia | done].
Qed.

(** ** The fragment methods as one equation *)

Create HintDb store_db.
#[local] Hint Resolve lookup_updated : store_db.

Ltac run_method :=
  unfold mbind, M_bind, mret, M_ret, throw;
  repeat first
    [ erewrite get_repeats_ok by eauto with store_db
    | erewrite checkOrder_ok by eauto with store_db
    | erewrite set_repeats_ok by eauto with store_db
    | erewrite get_selector_ok by eauto with store_db
    | erewrite set_selector_ok by eauto with store_db
    | erewrite push_order_ok by eauto with store_db
    | progress cbn beta iota delta [negb selector repeats order fst snd]
    | match goal with
      | |- context [if truthy ?x then _ else _] => destruct (truthy x)
      | |- context [if negb ?b then _ else _] => destruct b
      end ].

Lemma invoke_eq (h : Heap) (l : loc) (o : Obj) (c : Call) :
  h !! l = Some o →
  invoke l c h =
    if singleton c.1 && truthy (repeats o !! c.1)
    then (Throw DuplicateFragmentError, h)
    else if passes c.1 (order o)
         then (Ok l, <[l := appended o c]> h)
         else (Throw OrderViolationError, h).
Proof.
  intros Hl. destruct c as [k v]. unfold invoke, appended, template, passes.
  destruct k; cbn [fst snd singleton andb];
    [ unfold CssSelector.element | unfold CssSelector.id
    | unfold CssSelector.class | unfold CssSelector.attr
    | unfold CssSelector.pseudoClass | unfold CssSelector.pseudoElement ];
    run_method; try reflexivity;
    rewrite ?list_insert_insert_eq; reflexivity.
Qed.

(** A successful fragment call, seen from the node. *)
Lemma invoke_accept (h : Heap) (l : loc) (o : Obj) (c : Call) :
  h !! l = Some o →
  singleton c.1 && truthy (repeats o !! c.1) = false →
  passes c.1 (order o) = true →
  invoke l c h = (Ok l, <[l := appended o c]> h).
Proof. intros Hl Hd Hp. rewrite (invoke_eq _ _ _ _ Hl), Hd, Hp. done. Qed.

Lemma invoke_dangling (h : Heap) (l : loc) (c : Call) :
  h !! l = None → invoke l c h = (Dangling, h).
Proof.
  intros Hl. destruct c as [[] v]; cbn;
    unfold CssSelector.element, CssSelector.id, CssSelector.class,
      CssSelector.attr, CssSelector.pseudoClass, CssSelector.pseudoElement,
      CssSelector.checkOrder, get_repeats, get_order, mbind, M_bind;
    by rewrite (load_dangling _ _ Hl).
Qed.

Lemma get_selector_dangling (h : Heap) (l : loc) :
  h !! l = None → get_selector l h = (Dangling, h).
Proof.
  intros Hl. unfold get_selector, mbind, M_bind.
  by rewrite (load_dangling _ _ Hl).
Qed.

Lemma set_selector_dangling (h : Heap) (l : loc) (s : string) :
  h !! l = None → set_selector l s h = (Dangling, h).
Proof.
  intros Hl. unfold set_selector, mbind, M_bind.
  by rewrite (load_dangling _ _ Hl).
Qed.

Lemma combine_eq (h : Heap) (this s1 s2 : loc) (comb : string)
    (o o1 o2 : Obj) :
  h !! this = Some o → h !! s1 = Some o1 → h !! s2 = Some o2 →
  CssSelector.combine this s1 comb s2 h =
  (Ok this,
   <[this := mkObj (selector o1 +:+ " " +:+ comb +:+ " " +:+ selector o2)
                   (repeats o) (order o)]> h).
Proof.
  intros Ht H1 H2. unfold CssSelector.combine, mbind, M_bind, mret, M_ret.
  rewrite (get_selector_ok _ _ _ H1), (get_selector_ok _ _ _ H2).
  by rewrite (set_selector_ok _ _ _ Ht).
Qed.

(** The facade allocates, then calls the method on the new object. *)
Lemma facade_eq (c : Call) (h : Heap) :
  facade c h = invoke (length h) c (h ++ [CssSelector.init]).
Proof. by destruct c as [[] v]. Qed.

Lemma lookup_new (h : Heap) (o : Obj) : (h ++ [o]) !! length h = Some o.
Proof. by rewrite list_lookup_middle. Qed.

Lemma insert_new (h : Heap) (o o' : Obj) :
  <[length h := o']> (h ++ [o]) = h ++ [o'].
Proof.
  rewrite insert_app_r_alt by lia. by rewrite Nat.sub_diag.
Qed.

Lemma passes_nil (k : Kind) : passes k [] = true.
Proof. done. Qed.

Lemma facade_ok (c : Call) (h : Heap) :
  facade c h = (Ok (length h), h ++ [appended CssSelector.init c]).
Proof.
  rewrite facade_eq.
  rewrite (invoke_accept _ _ CssSelector.init);
    [by rewrite insert_new | apply lookup_new | | done].
  cbn. rewrite lookup_empty. apply andb_false_r.
Qed.

(** ** The effect of one action *)

Lemma attempt_cases (a : Action) (h : Heap) : heap_step a h (attempt h a).
Proof.
  unfold attempt. destruct a as [l c|l s1 comb s2|l|l k|c|s1 comb s2];
    cbn [perform]; unfold mbind at 1, M_bind at 1.
  - destruct (h !! l) as [o|] eqn:Hl.
    + rewrite (invoke_eq _ _ _ _ Hl).
      destruct (singleton c.1 && truthy (repeats o !! c.1)) eqn:Hd;
        [apply heap_kept|].
      destruct (passes c.1 (order o)) eqn:Hp; [|apply heap_kept].
      cbn. eapply heap_updated; [done..|]. by constructor.
    + rewrite (invoke_dangling _ _ _ Hl). apply heap_kept.
  - unfold CssSelector.combine, mbind, M_bind.
    destruct (h !! s1) as [o1|] eqn:H1;
      [rewrite (get_selector_ok _ _ _ H1)
      |rewrite (get_selector_dangling _ _ H1); apply heap_kept].
    destruct (h !! s2) as [o2|] eqn:H2;
      [rewrite (get_selector_ok _ _ _ H2)
      |rewrite (get_selector_dangling _ _ H2); apply heap_kept].
    destruct (h !! l) as [o|] eqn:Hl;
      [rewrite (set_selector_ok _ _ _ Hl)
      |rewrite (set_selector_dangling _ _ _ Hl); apply heap_kept].
    cbn. eapply heap_updated; [done..|]. constructor.
  - unfold CssSelector.stringify.
    destruct (h !! l) as [o|] eqn:Hl;
      [rewrite (get_selector_ok _ _ _ Hl)
      |rewrite (get_selector_dangling _ _ Hl)]; apply heap_kept.
  - destruct (h !! l) as [o|] eqn:Hl.
    + rewrite (checkOrder_ok _ _ _ Hl). apply heap_kept.
    + unfold CssSelector.checkOrder, get_order, mbind, M_bind.
      rewrite (load_dangling _ _ Hl). apply heap_kept.
  - rewrite facade_ok. cbn. apply heap_grown; [done|].
    constructor; [|done]. cbn. rewrite lookup_empty. apply andb_false_r.
  - unfold cssSelectorBuilder.combine, mbind, M_bind, CssSelector.new.
    pose proof (lookup_new h CssSelector.init) as Hn.
    set (h1 := h ++ [CssSelector.init]) in *.
    assert (h1 = h ++ [CssSelector.init]) as Hh1 by done.
    unfold CssSelector.combine, mbind, M_bind.
    destruct (h1 !! s1) as [o1|] eqn:H1;
      [rewrite (get_selector_ok _ _ _ H1)
      |rewrite (get_selector_dangling _ _ H1); cbn; rewrite Hh1;
       apply heap_grown; [done|constructor]].
    destruct (h1 !! s2) as [o2|] eqn:H2;
      [rewrite (get_selector_ok _ _ _ H2)
      |rewrite (get_selector_dangling _ _ H2); cbn; rewrite Hh1;
       apply heap_grown; [done|constructor]].
    rewrite (set_selector_ok _ _ _ Hn). cbn. rewrite Hh1, insert_new.
    apply heap_grown; [done|]. apply (obj_text CssSelector.init).
Qed.

(** ** The node invariant *)

Lemma passes_in_order k ks : passes k ks = true ↔ in_order k ks.
Proof. apply checkOrder_loop_true. Qed.

Lemma passes_out_of_order k ks : passes k ks = false ↔ out_of_order k ks.
Proof. apply checkOrder_loop_false. Qed.

Lemma occurrences_absent k ks : k ∉ ks → occurrences k ks = 0%nat.
Proof.
  intros Hk. apply count_occ_not_In. by rewrite <- list_elem_of_In.
Qed.

Lemma occurrences_snoc k k' ks :
  occurrences k (ks ++ [k']) =
  (occurrences k ks + if decide (k' = k) then 1 else 0)%nat.
Proof.
  unfold occurrences. rewrite count_occ_app. f_equal.
Qed.

Lemma ranks_snoc k ks : ranks (ks ++ [k]) = ranks ks ++ [orderValue k].
Proof. unfold ranks. by rewrite map_app. Qed.

Lemma node_inv_init : node_inv CssSelector.init.
Proof.
  split; cbn.
  - constructor.
  - intros; lia.
  - intros k. rewrite lookup_empty. cbn. split; [done|].
    intros [_ Hk]. by apply elem_of_nil in Hk.
Qed.

Lemma node_inv_appended (o : Obj) (c : Call) :
  node_inv o →
  singleton c.1 && truthy (repeats o !! c.1) = false →
  passes c.1 (order o) = true →
  node_inv (appended o c).
Proof.
  intros [Hs Ho Hr] Hd Hp. destruct c as [k v]. cbn [fst snd] in *.
  apply passes_in_order in Hp. split; cbn [appended order repeats fst snd].
  - rewrite ranks_snoc. apply StronglySorted_app_2; [|done|repeat constructor].
    intros x1 x2 Hx1 ->%list_elem_of_singleton.
    apply list_elem_of_fmap in Hx1 as (el & -> & Hel).
    unfold in_order in Hp. rewrite Forall_forall in Hp. by apply Hp.
  - intros k' Hk'. rewrite occurrences_snoc. case_decide as E.
    + subst k'. rewrite Hk' in Hd. cbn in Hd.
      rewrite occurrences_absent; [lia|].
      intros Hin. assert (truthy (repeats o !! k) = true) as Ht
        by by apply Hr.
      congruence.
    + specialize (Ho k' Hk'). lia.
  - intros k'. rewrite elem_of_app, list_elem_of_singleton.
    destruct (singleton k) eqn:Hk.
    + destruct (decide (k = k')) as [->|Hne].
      * rewrite lookup_insert_eq. cbn. split; [|done].
        intros _. split; [done|by right].
      * rewrite lookup_insert_ne by done. rewrite Hr. split.
        -- intros [Hk' Hin]. split; [done|by left].
        -- intros [Hk' [Hin|Heq]]; [done|]. by destruct Hne.
    + rewrite Hr. split.
      * intros [Hk' Hin]. split; [done|by left].
      * intros [Hk' [?| ->]]; [done|congruence].
Qed.

Lemma node_inv_step (o o' : Obj) : obj_step o o' → node_inv o → node_inv o'.
Proof.
  intros [|c Hd Hp|s] Hinv; [done|by apply node_inv_appended|].
  destruct Hinv. by split.
Qed.

Lemma heap_inv_step (a : Action) (h h' : Heap) :
  heap_step a h h' → Forall node_inv h → Forall node_inv h'.
Proof.
  intros [|l o o' _ Hl Hstep|o' _ Hstep] Hall; [done|..].
  - apply Forall_insert; [done|].
    eapply node_inv_step; [done|].
    rewrite Forall_lookup in Hall. by eapply Hall.
  - apply Forall_app. split; [done|]. constructor; [|done].
    eapply node_inv_step; [done|]. apply node_inv_init.
Qed.

Lemma heap_inv_attempt_all (acts : list Action) (h : Heap) :
  Forall node_inv h → Forall node_inv (attempt_all acts h).
Proof.
  revert h. induction acts as [|a acts IH]; intros h Hall; [done|].
  cbn. apply IH. eapply heap_inv_step; [apply attempt_cases|done].
Qed.

(** ** Frames: what an action leaves alone *)

Lemma attempt_lookup (a : Action) (h : Heap) (l : loc) (o : Obj) :
  h !! l = Some o → ∃ o', attempt h a !! l = Some o' ∧ obj_step o o'.
Proof.
  intros Hl. destruct (attempt_cases a h) as [|l' o1 o1' _ Hl' Hstep|o' _ _].
  - exists o. split; [done|constructor].
  - destruct (decide (l' = l)) as [->|Hne].
    + exists o1'. split; [by eapply lookup_updated|]. congruence.
    + exists o. rewrite list_lookup_insert_ne by done. split; [done|constructor].
  - exists o. split; [|constructor]. by apply lookup_app_l_Some.
Qed.

Lemma attempt_frame (a : Action) (h : Heap) (l : loc) (o : Obj) :
  h !! l = Some o → target a ≠ Some l → attempt h a !! l = Some o.
Proof.
  intros Hl Ht. destruct (attempt_cases a h) as [|l' o1 o1' Ha Hl' _|o' _ _].
  - done.
  - rewrite list_lookup_insert_ne; [done|]. congruence.
  - by apply lookup_app_l_Some.
Qed.

Lemma attempt_all_frame (acts : list Action) (h : Heap) (l : loc) (o : Obj) :
  h !! l = Some o → Forall (λ a, target a ≠ Some l) acts →
  attempt_all acts h !! l = Some o.
Proof.
  revert h. induction acts as [|a acts IH]; intros h Hl Hacts; [done|].
  apply Forall_cons in Hacts as [Ha Hacts]. cbn.
  apply IH; [|done]. by apply attempt_frame.
Qed.

(** A flag of [repeats], once set, stays set. *)
Lemma flag_step (o o' : Obj) (k : Kind) :
  obj_step o o' → truthy (repeats o !! k) = true →
  truthy (repeats o' !! k) = true.
Proof.
  intros [|c _ _|s] Hk; [done| |done]. cbn.
  destruct (singleton c.1); [|done].
  destruct (decide (c.1 = k)) as [->|Hne].
  - by rewrite lookup_insert_eq.
  - by rewrite lookup_insert_ne.
Qed.

Lemma flag_attempt_all (acts : list Action) (h : Heap) (l : loc) (o : Obj)
    (k : Kind) :
  h !! l = Some o → truthy (repeats o !! k) = true →
  ∃ o', attempt_all acts h !! l = Some o' ∧ truthy (repeats o' !! k) = true.
Proof.
  revert h o. induction acts as [|a acts IH]; intros h o Hl Hk.
  - by exists o.
  - cbn. destruct (attempt_lookup a h l o Hl) as (o1 & Hl1 & Hstep).
    eapply IH; [done|]. by eapply flag_step.
Qed.

(** ** Text *)

Lemma append_cons (a : Ascii.ascii) (s t : string) :
  String a s +:+ t = String a (s +:+ t).
Proof. reflexivity. Qed.

Lemma append_assoc (s1 s2 s3 : string) :
  (s1 +:+ s2) +:+ s3 = s1 +:+ (s2 +:+ s3).
Proof.
  induction s1 as [|a s1 IH]; [done|]. by rewrite !append_cons, IH.
Qed.

Lemma append_empty_r (s : string) : s +:+ "" = s.
Proof. induction s as [|a s IH]; [done|]. by rewrite append_cons, IH. Qed.

(** ** Chains *)

(** A chain that runs to its end returns the handle it started from,
    writes to that node only, and leaves in it the text it had followed by
    the templates of the calls, in call order. *)
Lemma chain_ok_text (cs : list Call) (h h' : Heap) (l l' : loc) (o : Obj) :
  h !! l = Some o → chain l cs h = (Ok l', h') →
  l' = l ∧ ∃ o', h' !! l = Some o' ∧
    selector o' = selector o +:+ concat_text (map template cs) ∧
    order o' = order o ++ map fst cs ∧
    h' = <[l := o']> h.
Proof.
  revert h o. induction cs as [|c cs IH]; intros h o Hl Hrun.
  - cbn in Hrun. injection Hrun as <- <-. split; [done|]. exists o.
    cbn. by rewrite append_empty_r, app_nil_r, list_insert_id.
  - cbn [chain] in Hrun. unfold mbind, M_bind in Hrun.
    rewrite (invoke_eq _ _ _ _ Hl) in Hrun.
    destruct (singleton c.1 && truthy (repeats o !! c.1)); [done|].
    destruct (passes c.1 (order o)); [|done].
    apply IH with (o := appended o c) in Hrun; [|by eapply lookup_updated].
    destruct Hrun as (-> & o' & Hl' & Htext & Hord & ->). split; [done|].
    exists o'. rewrite list_insert_insert_eq.
    split; [by eapply lookup_updated|]. rewrite Htext, Hord.
    cbn [appended selector order map concat_text fold_right].
    by rewrite append_assoc, <- app_assoc.
Qed.

(** A chain whose calls, after what the node already holds, keep the ranks
    non-decreasing and repeat no singleton kind, runs to its end. *)
Lemma chain_accepts (cs : list Call) (h : Heap) (l : loc) (o : Obj) :
  h !! l = Some o → node_inv o →
  StronglySorted Z.le (ranks (order o ++ map fst cs)) →
  (∀ k, singleton k = true →
        (occurrences k (order o ++ map fst cs) ≤ 1)%nat) →
  ∃ h', chain l cs h = (Ok l, h').
Proof.
  revert h o. induction cs as [|c cs IH]; intros h o Hl Hinv Hs Ho.
  - by exists h.
  - cbn [chain]. unfold mbind, M_bind. cbn [map] in Hs, Ho.
    assert (singleton c.1 && truthy (repeats o !! c.1) = false) as Hd.
    { destruct (singleton c.1) eqn:Hk; [|done]. cbn.
      apply not_true_is_false. intros Ht.
      apply (inv_seen _ Hinv) in Ht as [_ Hin].
      specialize (Ho _ Hk). unfold occurrences in Ho.
      rewrite count_occ_app in Ho. cbn in Ho.
      destruct (Kind_eq_dec c.1 c.1); [|done].
      apply list_elem_of_In, (count_occ_In Kind_eq_dec) in Hin. lia. }
    assert (passes c.1 (order o) = true) as Hp.
    { apply passes_in_order. unfold in_order. apply Forall_forall.
      intros el Hel. unfold ranks in Hs. rewrite map_app in Hs.
      apply StronglySorted_app in Hs as (Hs & _ & _).
      apply Hs; [by apply list_elem_of_fmap_2|]. cbn. left. }
    rewrite (invoke_accept _ _ _ _ Hl Hd Hp).
    apply IH with (o := appended o c).
    + by eapply lookup_updated.
    + by apply node_inv_appended.
    + cbn. by rewrite <- app_assoc.
    + intros k Hk. cbn. rewrite <- app_assoc. by apply Ho.
Qed.

(** ** Reachable stores hold the invariant *)

Lemma attempt_fragment (h : Heap) (l : loc) (c : Call) :
  attempt h (AFragment l c) = (invoke l c h).2.
Proof.
  unfold attempt. cbn [perform]. unfold mbind, M_bind.
  by destruct (invoke l c h) as [[]].
Qed.

Lemma invoke_heap_inv (h : Heap) (l : loc) (c : Call) :
  Forall node_inv h → Forall node_inv (invoke l c h).2.
Proof.
  intros Hall. rewrite <- attempt_fragment.
  eapply heap_inv_step; [apply attempt_cases|done].
Qed.

Lemma chain_heap_inv (cs : list Call) (h : Heap) (l : loc) :
  Forall node_inv h → Forall node_inv (chain l cs h).2.
Proof.
  revert h l. induction cs as [|c cs IH]; intros h l Hall; [done|].
  cbn [chain]. unfold mbind, M_bind.
  pose proof (invoke_heap_inv h l c Hall) as H1.
  destruct (invoke l c h) as [[l'|e|] h1]; cbn [snd] in *; [|done..].
  by apply IH.
Qed.

(** * The properties of the specification *)

(** ** Rendering of a well-ordered chain *)

(** A store read through [stringify]. *)
Lemma stringify_ok (h : Heap) (l : loc) (o : Obj) :
  h !! l = Some o → CssSelector.stringify l h = (Ok (selector o), h).
Proof. apply get_selector_ok. Qed.

Lemma new_then_chain (cs : list Call) (h : Heap) :
  Sorted Z.le (ranks (map fst cs)) →
  (∀ k, singleton k = true → (occurrences k (map fst cs) ≤ 1)%nat) →
  ∃ h', (l ← CssSelector.new; l' ← chain l cs; CssSelector.stringify l') h =
        (Ok (concat_text (map template cs)), h').
Proof.
  intros Hs Ho. unfold mbind, M_bind, CssSelector.new.
  pose proof (lookup_new h CssSelector.init) as Hn.
  destruct (chain_accepts cs _ _ _ Hn node_inv_init) as [h' Hrun].
  - cbn. apply Sorted_StronglySorted; [|done]. intros x y z. apply Z.le_trans.
  - done.
  - rewrite Hrun.
    destruct (chain_ok_text _ _ _ _ _ _ Hn Hrun) as (_ & o' & Hl' & Ht & _ & _).
    exists h'. by rewrite (stringify_ok _ _ _ Hl'), Ht.
Qed.

Lemma build_eq (c : Call) (cs : list Call) (h : Heap) :
  build c cs h =
  (l ← CssSelector.new; l' ← chain l (c :: cs); CssSelector.stringify l') h.
Proof.
  unfold build, mbind, M_bind, CssSelector.new. rewrite facade_eq.
  cbn [chain]. unfold mbind, M_bind.
  by destruct (invoke (length h) c (h ++ [CssSelector.init])) as [[]].
Qed.

(** C1.  Take any sequence of fragment calls whose ranks never decrease and
    in which element, id and pseudoElement occur at most once each.  Made
    on a new node, in any store, the calls all return, and [stringify()]
    then returns the templates of the calls applied to their arguments,
    concatenated in call order with nothing in between.  The same holds
    for the chain started through the facade,
    [cssSelectorBuilder.k(v).k1(v1)...stringify()]. *)
Theorem chain_stringify_concat (h : Heap) (cs : list Call)
    (Hsorted : Sorted Z.le (ranks (map fst cs)))
    (Honce : ∀ k, singleton k = true →
                  (occurrences k (map fst cs) ≤ 1)%nat) :
  (∃ h', (l ← CssSelector.new; l' ← chain l cs; CssSelector.stringify l') h =
         (Ok (concat_text (map template cs)), h')) ∧
  (∀ c cs', cs = c :: cs' →
     ∃ h', build c cs' h = (Ok (concat_text (map template cs)), h')).
Proof.
  split; [by apply new_then_chain|].
  intros c cs' ->. rewrite build_eq. by apply new_then_chain.
Qed.

Lemma chain_stringify_concat_witness :
  let cs : list Call :=
    [(KElement, "div"); (KId, "main"); (KClass, "container");
     (KClass, "draggable"); (KAttr, "href"); (KPseudoClass, "focus");
     (KPseudoElement, "after")] in
  Sorted Z.le (ranks (map fst cs)) ∧
  (∀ k, singleton k = true → (occurrences k (map fst cs) ≤ 1)%nat) ∧
  ∃ h', build (KElement, "div") (tail cs) [] =
        (Ok "div#main.container.draggable[href]:focus::after", h').
Proof.
  intros cs.
  assert (Sorted Z.le (ranks (map fst cs))) as Hs.
  { cbn. repeat first [apply Sorted_nil | apply Sorted_cons
                      | apply HdRel_nil | apply HdRel_cons | lia]. }
  assert (∀ k, singleton k = true → (occurrences k (map fst cs) ≤ 1)%nat)
    as Ho.
  { intros [] Hk; cbn in *; first [lia | discriminate]. }
  split; [exact Hs|]. split; [exact Ho|].
  exact (proj2 (chain_stringify_concat [] cs Hs Ho) _ _ eq_refl).
Defined.

(** ** The order check *)

Lemma store_after_inv (c : Call) (cs : list Call) (l : loc) (o : Obj) :
  store_after c cs !! l = Some o → node_inv o.
Proof.
  unfold store_after, mbind, M_bind. rewrite facade_ok. intros Hl.
  eapply (proj1 (Forall_lookup _ _)); [|exact Hl].
  apply chain_heap_inv. constructor; [|done].
  apply node_inv_appended; [apply node_inv_init| |done].
  cbn. rewrite lookup_empty. apply andb_false_r.
Qed.

(** On a node that satisfies the invariant, the flag of a singleton kind is
    set exactly when the kind was appended. *)
Lemma duplicate_test (o : Obj) (k : Kind) :
  node_inv o →
  singleton k && truthy (repeats o !! k) = true ↔
  singleton k = true ∧ k ∈ order o.
Proof.
  intros Hinv. rewrite andb_true_iff, (inv_seen _ Hinv). tauto.
Qed.

(** C2, as the specification states it, fails: the node of
    [id('a').class('x')] holds a class fragment, whose rank 2 is above the
    rank 1 of id, yet a further [id('b')] raises the duplicate error and
    not the order error. *)
Lemma order_error_counterexample :
  let h := store_after (KId, "a") [(KClass, "x")] in
  (get_order 0 h).1 = Ok [KId; KClass] ∧
  orderValue KId < orderValue KClass ∧
  invoke 0 (KId, "b") h = (Throw DuplicateFragmentError, h) ∧
  invoke 0 (KId, "b") h ≠ (Throw OrderViolationError, h).
Proof.
  intros h. split; [by vm_compute|]. split; [by vm_compute|].
  assert (invoke 0 (KId, "b") h = (Throw DuplicateFragmentError, h)) as E
    by by vm_compute.
  split; [done|]. rewrite E. discriminate.
Qed.

(** C2, amended.  On a node that holds the invariant, a call of a kind whose
    rank is strictly below the rank of some fragment already appended
    raises the order error and leaves the store as it was, unless the kind
    is a singleton kind that was already appended.  A kind whose rank is at
    least every rank already appended passes [checkOrder]; and a repeatable
    kind that was accepted once is accepted again when called next. *)
Theorem order_check (h : Heap) (l : loc) (o : Obj) (k : Kind) (v v' : string)
    (Hl : h !! l = Some o) (Hinv : node_inv o) :
  (out_of_order k (order o) →
   ¬ (singleton k = true ∧ k ∈ order o) →
   invoke l (k, v) h = (Throw OrderViolationError, h)) ∧
  (in_order k (order o) → CssSelector.checkOrder l k h = (Ok true, h)) ∧
  (out_of_order k (order o) → CssSelector.checkOrder l k h = (Ok false, h)) ∧
  (singleton k = false → ∀ h1,
   invoke l (k, v) h = (Ok l, h1) →
   ∃ h2, invoke l (k, v') h1 = (Ok l, h2)).
Proof.
  split; [|split; [|split]].
  - intros Hout Hnd. rewrite (invoke_eq _ _ _ _ Hl). cbn [fst snd].
    destruct (singleton k && truthy (repeats o !! k)) eqn:Hd.
    + by apply (duplicate_test _ _ Hinv) in Hd.
    + apply passes_out_of_order in Hout. by rewrite Hout.
  - intros Hin. rewrite (checkOrder_ok _ _ _ Hl).
    apply passes_in_order in Hin. unfold passes in Hin. by rewrite Hin.
  - intros Hout. rewrite (checkOrder_ok _ _ _ Hl).
    apply passes_out_of_order in Hout. unfold passes in Hout. by rewrite Hout.
  - intros Hk h1 Hrun. rewrite (invoke_eq _ _ _ _ Hl) in Hrun.
    cbn [fst snd] in Hrun. rewrite Hk in Hrun. cbn [andb] in Hrun.
    destruct (passes k (order o)) eqn:Hp; [|done].
    injection Hrun as <-. eexists.
    apply invoke_accept with (o := appended o (k, v)).
    + by eapply lookup_updated.
    + cbn [fst snd]. by rewrite Hk.
    + cbn. apply passes_in_order. apply passes_in_order in Hp.
      unfold in_order in *. apply Forall_app. split; [done|].
      constructor; [lia|done].
Qed.

Lemma order_check_witness :
  let h := store_after (KId, "a") [(KClass, "x")] in
  let o := mkObj "#a.x" (<[KId := true]> ∅) [KId; KClass] in
  h !! 0%nat = Some o ∧ node_inv o ∧
  (out_of_order KElement (order o) ∧
   ¬ (singleton KElement = true ∧ KElement ∈ order o) ∧
   invoke 0 (KElement, "p") h = (Throw OrderViolationError, h)) ∧
  (in_order KAttr (order o) ∧
   CssSelector.checkOrder 0 KAttr h = (Ok true, h)) ∧
  (out_of_order KElement (order o) ∧
   CssSelector.checkOrder 0 KElement h = (Ok false, h)) ∧
  (singleton KClass = false ∧
   invoke 0 (KClass, "y") h = (Ok 0%nat, <[0%nat := appended o (KClass, "y")]> h) ∧
   ∃ h2, invoke 0 (KClass, "z") (<[0%nat := appended o (KClass, "y")]> h) =
         (Ok 0%nat, h2)).
Proof.
  intros h o.
  assert (h !! 0%nat = Some o) as Hl by (vm_compute; reflexivity).
  assert (node_inv o) as Hinv by exact (store_after_inv _ _ _ _ Hl).
  assert (out_of_order KElement (order o)) as Hout
    by (apply Exists_cons_hd; cbn; lia).
  assert (¬ (singleton KElement = true ∧ KElement ∈ order o)) as Hnd.
  { intros [_ Hin]. cbn in Hin.
    repeat (apply elem_of_cons in Hin as [Hin|Hin]; [discriminate|]).
    by apply elem_of_nil in Hin. }
  assert (in_order KAttr (order o)) as Hin
    by (repeat constructor; cbn; lia).
  assert (invoke 0 (KClass, "y") h =
          (Ok 0%nat, <[0%nat := appended o (KClass, "y")]> h)) as Hrun
    by (vm_compute; reflexivity).
  split; [exact Hl|]. split; [exact Hinv|].
  split; [|split; [|split]].
  - split; [exact Hout|]. split; [exact Hnd|].
    exact (proj1 (order_check h 0 o KElement "p" "p" Hl Hinv) Hout Hnd).
  - split; [exact Hin|].
    exact (proj1 (proj2 (order_check h 0 o KAttr "p" "p" Hl Hinv)) Hin).
  - split; [exact Hout|].
    exact (proj1 (proj2 (proj2
             (order_check h 0 o KElement "p" "p" Hl Hinv))) Hout).
  - split; [reflexivity|]. split; [exact Hrun|].
    exact (proj2 (proj2 (proj2 (order_check h 0 o KClass "y" "z" Hl Hinv)))
             eq_refl _ Hrun).
Defined.

(** ** Duplicates *)

(** C3.  Once a singleton-kind call returned on a node, every later call of
    that kind on the node raises the duplicate error, whatever the client
    did in between, on this node or on others, caught errors included.
    A call of a repeatable kind never raises the duplicate error, in any
    store; and a chain of repeatable calls that returns leaves the text the
    node had, followed by their templates in call order. *)
Theorem duplicate_rule :
  (∀ (h h1 : Heap) (l l' : loc) (k : Kind) (v v' : string)
     (acts : list Action),
     singleton k = true →
     invoke l (k, v) h = (Ok l', h1) →
     invoke l (k, v') (attempt_all acts h1) =
     (Throw DuplicateFragmentError, attempt_all acts h1)) ∧
  (∀ (h : Heap) (l : loc) (k : Kind) (v : string),
     singleton k = false →
     (invoke l (k, v) h).1 ≠ Throw DuplicateFragmentError) ∧
  (∀ (h h' : Heap) (l l' : loc) (o : Obj) (cs : list Call),
     Forall (λ c, singleton c.1 = false) cs →
     h !! l = Some o →
     chain l cs h = (Ok l', h') →
     CssSelector.stringify l' h' =
     (Ok (selector o +:+ concat_text (map template cs)), h')).
Proof.
  split; [|split].
  - intros h h1 l l' k v v' acts Hk Hrun.
    destruct (h !! l) as [o|] eqn:Hl;
      [|by rewrite (invoke_dangling _ _ _ Hl) in Hrun].
    rewrite (invoke_eq _ _ _ _ Hl) in Hrun. cbn [fst snd] in Hrun.
    destruct (singleton k && truthy (repeats o !! k)); [done|].
    destruct (passes k (order o)); [|done]. injection Hrun as <- <-.
    destruct (flag_attempt_all acts (<[l := appended o (k, v)]> h) l
                (appended o (k, v)) k) as (o2 & Hl2 & Hflag).
    + by eapply lookup_updated.
    + cbn. rewrite Hk. by rewrite lookup_insert_eq.
    + rewrite (invoke_eq _ _ _ _ Hl2). cbn [fst snd]. by rewrite Hk, Hflag.
  - intros h l k v Hk.
    destruct (h !! l) as [o|] eqn:Hl;
      [|by rewrite (invoke_dangling _ _ _ Hl)].
    rewrite (invoke_eq _ _ _ _ Hl). cbn [fst snd]. rewrite Hk. cbn [andb].
    by destruct (passes k (order o)).
  - intros h h' l l' o cs _ Hl Hrun.
    destruct (chain_ok_text _ _ _ _ _ _ Hl Hrun) as (-> & o' & Hl' & Ht & _ & _).
    by rewrite (stringify_ok _ _ _ Hl'), Ht.
Qed.

Lemma duplicate_rule_witness :
  let h1 := store_after (KElement, "a") [] in
  let acts := [AFragment 0 (KClass, "c"); AFragment 0 (KId, "i");
               AFragment 0 (KElement, "z"); ABuilderFragment (KId, "j");
               ACombine 0 0 "+" 1; AFragment 0 (KPseudoClass, "p")] in
  (singleton KElement = true ∧
   invoke 0 (KElement, "a") [CssSelector.init] = (Ok 0%nat, h1) ∧
   invoke 0 (KElement, "b") (attempt_all acts h1) =
   (Throw DuplicateFragmentError, attempt_all acts h1)) ∧
  (singleton KClass = false ∧
   (invoke 0 (KClass, "c") h1).1 ≠ Throw DuplicateFragmentError) ∧
  (Forall (λ c : Call, singleton c.1 = false)
     [(KClass, "c"); (KClass, "d"); (KAttr, "e")] ∧
   chain 0 [(KClass, "c"); (KClass, "d"); (KAttr, "e")] h1 =
   (Ok 0%nat, [mkObj "a.c.d[e]" (<[KElement := true]> ∅)
                 [KElement; KClass; KClass; KAttr]]) ∧
   CssSelector.stringify 0
     [mkObj "a.c.d[e]" (<[KElement := true]> ∅)
        [KElement; KClass; KClass; KAttr]] =
   (Ok "a.c.d[e]",
    [mkObj "a.c.d[e]" (<[KElement := true]> ∅)
       [KElement; KClass; KClass; KAttr]])).
Proof.
  intros h1 acts.
  assert (invoke 0 (KElement, "a") [CssSelector.init] = (Ok 0%nat, h1)) as Hrun
    by (vm_compute; reflexivity).
  assert (Forall (λ c : Call, singleton c.1 = false)
            [(KClass, "c"); (KClass, "d"); (KAttr, "e")]) as Hrep
    by (repeat constructor).
  assert (h1 !! 0%nat = Some (mkObj "a" (<[KElement := true]> ∅) [KElement]))
    as Hl by (vm_compute; reflexivity).
  assert (chain 0 [(KClass, "c"); (KClass, "d"); (KAttr, "e")] h1 =
          (Ok 0%nat, [mkObj "a.c.d[e]" (<[KElement := true]> ∅)
                        [KElement; KClass; KClass; KAttr]])) as Hchain
    by (vm_compute; reflexivity).
  split; [|split].
  - split; [reflexivity|]. split; [exact Hrun|].
    exact (proj1 duplicate_rule _ _ _ _ KElement "a" "b" acts eq_refl Hrun).
  - split; [reflexivity|].
    exact (proj1 (proj2 duplicate_rule) h1 0%nat KClass "c" eq_refl).
  - split; [exact Hrep|]. split; [exact Hchain|].
    exact (proj2 (proj2 duplicate_rule) _ _ _ _ _ _ Hrep Hl Hchain).
Defined.

(** ** Failed calls *)

(** C5.  A fragment call that raises, with either error, leaves the whole
    store as it was: the node keeps its text, its [repeats] record and its
    [order] array, and [stringify()] returns after the call what it returned
    before. *)
Theorem fragment_all_or_nothing (h h' : Heap) (l : loc) (c : Call)
    (e : Error) (Hthrow : invoke l c h = (Throw e, h')) :
  h' = h ∧ h' !! l = h !! l ∧
  CssSelector.stringify l h' = CssSelector.stringify l h.
Proof.
  assert (h' = h) as ->; [|done].
  destruct (h !! l) as [o|] eqn:Hl.
  - rewrite (invoke_eq _ _ _ _ Hl) in Hthrow.
    destruct (singleton c.1 && truthy (repeats o !! c.1));
      [by injection Hthrow|].
    destruct (passes c.1 (order o)); [done|by injection Hthrow].
  - by rewrite (invoke_dangling _ _ _ Hl) in Hthrow.
Qed.

Lemma fragment_all_or_nothing_witness :
  let h := store_after (KId, "a") [(KPseudoClass, "x")] in
  let h' := (invoke 0 (KClass, "c") h).2 in
  invoke 0 (KClass, "c") h = (Throw OrderViolationError, h') ∧
  h' = h ∧ h' !! 0%nat = h !! 0%nat ∧
  CssSelector.stringify 0 h' = CssSelector.stringify 0 h.
Proof.
  intros h h'.
  assert (invoke 0 (KClass, "c") h = (Throw OrderViolationError, h')) as Hord
    by (vm_compute; reflexivity).
  split; [exact Hord|].
  exact (fragment_all_or_nothing h h' 0 (KClass, "c") OrderViolationError
           Hord).
Defined.

(** C10.  When a singleton kind was already appended to a node and some
    fragment of a higher rank was appended as well, a further call of that
    kind breaks both rules; the error raised is the duplicate error, whose
    message is not that of the order error, and the store is left as it
    was. *)
Theorem duplicate_before_order (h : Heap) (l : loc) (o : Obj) (k : Kind)
    (v : string)
    (Hl : h !! l = Some o) (Hinv : node_inv o)
    (Hsingle : singleton k = true)
    (Hseen : k ∈ order o)
    (Hout : out_of_order k (order o)) :
  invoke l (k, v) h = (Throw DuplicateFragmentError, h) ∧
  CssSelector.checkOrder l k h = (Ok false, h) ∧
  message DuplicateFragmentError ≠ message OrderViolationError.
Proof.
  split; [|split].
  - rewrite (invoke_eq _ _ _ _ Hl). cbn [fst snd].
    by rewrite (proj2 (duplicate_test o k Hinv) (conj Hsingle Hseen)).
  - rewrite (checkOrder_ok _ _ _ Hl).
    apply passes_out_of_order in Hout. unfold passes in Hout. by rewrite Hout.
  - discriminate.
Qed.

Lemma duplicate_before_order_witness :
  let h := store_after (KId, "a") [(KPseudoElement, "x")] in
  let o := mkObj "#a::x" (<[KPseudoElement := true]> (<[KId := true]> ∅))
             [KId; KPseudoElement] in
  h !! 0%nat = Some o ∧ node_inv o ∧ singleton KId = true ∧
  KId ∈ order o ∧ out_of_order KId (order o) ∧
  invoke 0 (KId, "b") h = (Throw DuplicateFragmentError, h) ∧
  CssSelector.checkOrder 0 KId h = (Ok false, h) ∧
  message DuplicateFragmentError ≠ message OrderViolationError.
Proof.
  intros h o.
  assert (h !! 0%nat = Some o) as Hl by (vm_compute; reflexivity).
  assert (node_inv o) as Hinv by exact (store_after_inv _ _ _ _ Hl).
  assert (KId ∈ order o) as Hseen by (cbn; left).
  assert (out_of_order KId (order o)) as Hout
    by (apply Exists_cons_tl, Exists_cons_hd; cbn; lia).
  split; [exact Hl|]. split; [exact Hinv|]. split; [reflexivity|].
  split; [exact Hseen|]. split; [exact Hout|].
  exact (duplicate_before_order h 0 o KId "b" Hl Hinv eq_refl Hseen Hout).
Defined.

(** ** What an accepted call records *)

(** C7, as the specification states it, fails: after
    [cssSelectorBuilder.class('a')] returned, the property [class] of the
    node's [repeats] record is still missing, and reads as false. *)
Lemma class_not_recorded_counterexample :
  let h := store_after (KClass, "a") [] in
  facade (KClass, "a") [] = (Ok 0%nat, h) ∧
  h = [mkObj ".a" ∅ [KClass]] ∧
  (o ← load 0; mret (repeats o !! KClass)) h = (Ok None, h) ∧
  get_repeats 0 KClass h = (Ok false, h).
Proof. intros h. by vm_compute. Qed.

(** C7, amended.  A fragment call that returns, of any of the six kinds,
    returns the node it was made on, pushes its kind onto the end of
    [order], so the rank of the kind onto the end of the recorded ranks,
    and appends its template to the text.  A singleton kind is also set in
    [repeats]; for the repeatable kinds class, attr and pseudoClass the
    record [repeats] is left as it was. *)
Theorem accepted_call_records (h h1 : Heap) (l l' : loc) (o : Obj) (c : Call)
    (Hl : h !! l = Some o)
    (Hrun : invoke l c h = (Ok l', h1)) :
  l' = l ∧
  ∃ o', h1 !! l = Some o' ∧
    order o' = order o ++ [c.1] ∧
    ranks (order o') = ranks (order o) ++ [orderValue c.1] ∧
    selector o' = selector o +:+ template c ∧
    (singleton c.1 = true →
       repeats o' = <[c.1 := true]> (repeats o) ∧
       truthy (repeats o' !! c.1) = true) ∧
    (singleton c.1 = false → repeats o' = repeats o).
Proof.
  rewrite (invoke_eq _ _ _ _ Hl) in Hrun.
  destruct (singleton c.1 && truthy (repeats o !! c.1)); [done|].
  destruct (passes c.1 (order o)); [|done]. injection Hrun as <- <-.
  split; [done|]. exists (appended o c).
  split; [by eapply lookup_updated|]. cbn [appended order selector repeats].
  split; [done|]. split; [apply ranks_snoc|]. split; [done|].
  split; intros ->; [|done]. split; [done|]. by rewrite lookup_insert_eq.
Qed.

Lemma accepted_call_records_witness :
  let h := store_after (KElement, "p") [] in
  let o := mkObj "p" (<[KElement := true]> ∅) [KElement] in
  let h1 := (invoke 0 (KClass, "a") h).2 in
  h !! 0%nat = Some o ∧
  invoke 0 (KClass, "a") h = (Ok 0%nat, h1) ∧
  ∃ o', h1 !! 0%nat = Some o' ∧
    order o' = [KElement; KClass] ∧
    ranks (order o') = [0; 2] ∧
    selector o' = "p.a" ∧
    (singleton KClass = true →
       repeats o' = <[KClass := true]> (repeats o) ∧
       truthy (repeats o' !! KClass) = true) ∧
    (singleton KClass = false → repeats o' = repeats o).
Proof.
  intros h o h1.
  assert (h !! 0%nat = Some o) as Hl by (vm_compute; reflexivity).
  assert (invoke 0 (KClass, "a") h = (Ok 0%nat, h1)) as Hrun
    by (vm_compute; reflexivity).
  split; [exact Hl|]. split; [exact Hrun|].
  exact (proj2 (accepted_call_records h h1 0 0 o (KClass, "a") Hl Hrun)).
Defined.

(** ** Combinations *)

Lemma builder_combine_eq (h : Heap) (s1 s2 : loc) (comb : string)
    (o1 o2 : Obj) :
  h !! s1 = Some o1 → h !! s2 = Some o2 →
  cssSelectorBuilder.combine s1 comb s2 h =
  (Ok (length h),
   h ++ [mkObj (combined_text (selector o1) comb (selector o2)) ∅ []]).
Proof.
  intros H1 H2. unfold cssSelectorBuilder.combine, mbind, M_bind.
  unfold CssSelector.new.
  rewrite (combine_eq _ _ _ _ _ CssSelector.init o1 o2);
    [by rewrite insert_new | apply lookup_new | by apply lookup_app_l_Some..].
Qed.

(** A combination that returned is a new object with empty tracking. *)
Lemma builder_combine_inv (h h1 : Heap) (s1 s2 c : loc) (comb : string) :
  cssSelectorBuilder.combine s1 comb s2 h = (Ok c, h1) →
  c = length h ∧ ∃ t, h1 = h ++ [mkObj t ∅ []].
Proof.
  unfold cssSelectorBuilder.combine, mbind at 1, M_bind at 1.
  unfold CssSelector.new, CssSelector.combine, mbind, M_bind.
  set (h0 := h ++ [CssSelector.init]).
  destruct (get_selector s1 h0) as [[t1| |] h2] eqn:E1; [|done..].
  destruct (get_selector s2 h2) as [[t2| |] h3] eqn:E2; [|done..].
  assert (h2 = h0) as ->.
  { unfold get_selector, mbind, M_bind, load in E1.
    destruct (h0 !! s1); by injection E1. }
  assert (h3 = h0) as ->.
  { unfold get_selector, mbind, M_bind, load in E2.
    destruct (h0 !! s2); by injection E2. }
  rewrite (set_selector_ok _ _ _ (lookup_new h CssSelector.init)).
  unfold mret, M_ret. intros [= <- <-]. split; [done|].
  eexists. apply insert_new.
Qed.

(** C9.  The handle [cssSelectorBuilder.combine] returns denotes an object
    whose [repeats] record and [order] array are empty.  So a fragment call
    of any kind made on it next, element included, returns, and
    [stringify()] then gives the combined text followed by the template of
    the call. *)
Theorem fragment_on_combination (h h1 : Heap) (s1 s2 c : loc)
    (comb : string) (k : Kind) (v : string)
    (Hcomb : cssSelectorBuilder.combine s1 comb s2 h = (Ok c, h1)) :
  ∃ t,
    h1 !! c = Some (mkObj t ∅ []) ∧
    CssSelector.stringify c h1 = (Ok t, h1) ∧
    ∃ h2, invoke c (k, v) h1 = (Ok c, h2) ∧
          CssSelector.stringify c h2 = (Ok (t +:+ template (k, v)), h2).
Proof.
  destruct (builder_combine_inv _ _ _ _ _ _ Hcomb) as (-> & t & ->).
  pose proof (lookup_new h (mkObj t ∅ [])) as Hc.
  exists t. split; [done|]. split; [by rewrite (stringify_ok _ _ _ Hc)|].
  eexists. split.
  - apply (invoke_accept _ _ _ _ Hc); [|done].
    cbn. rewrite lookup_empty. apply andb_false_r.
  - by rewrite (stringify_ok _ _ _ (lookup_updated _ _ _ Hc _)).
Qed.

Lemma fragment_on_combination_witness :
  let h := attempt_all
             [ABuilderFragment (KElement, "div");
              ABuilderFragment (KPseudoElement, "after")] [] in
  let h1 := h ++ [mkObj "div > ::after" ∅ []] in
  cssSelectorBuilder.combine 0 ">" 1 h = (Ok 2%nat, h1) ∧
  ∃ t,
    h1 !! 2%nat = Some (mkObj t ∅ []) ∧
    CssSelector.stringify 2 h1 = (Ok t, h1) ∧
    ∃ h2, invoke 2 (KElement, "p") h1 = (Ok 2%nat, h2) ∧
          CssSelector.stringify 2 h2 = (Ok (t +:+ "p"), h2).
Proof.
  intros h h1.
  assert (cssSelectorBuilder.combine 0 ">" 1 h = (Ok 2%nat, h1)) as Hcomb
    by (vm_compute; reflexivity).
  split; [exact Hcomb|].
  exact (fragment_on_combination h h1 0 1 2 ">" KElement "p" Hcomb).
Defined.

(** C8.  A combination holds the text its operands had when
    [cssSelectorBuilder.combine] was called.  Whatever the client does
    afterwards to the operands or to any other object, fragment calls that
    return or raise and further combinations included, as long as it calls
    no mutating method on the combination itself, [stringify()] of the
    combination returns that same text. *)
Theorem combine_snapshot (h h1 : Heap) (a b c : loc) (comb ta tb : string)
    (acts : list Action)
    (Ha : CssSelector.stringify a h = (Ok ta, h))
    (Hb : CssSelector.stringify b h = (Ok tb, h))
    (Hcomb : cssSelectorBuilder.combine a comb b h = (Ok c, h1))
    (Hacts : Forall (λ act, target act ≠ Some c) acts) :
  c ≠ a ∧ c ≠ b ∧
  CssSelector.stringify c h1 = (Ok (combined_text ta comb tb), h1) ∧
  CssSelector.stringify c (attempt_all acts h1) =
  (Ok (combined_text ta comb tb), attempt_all acts h1).
Proof.
  unfold CssSelector.stringify in Ha, Hb.
  destruct (h !! a) as [oa|] eqn:Hla;
    [|by rewrite (get_selector_dangling _ _ Hla) in Ha].
  destruct (h !! b) as [ob|] eqn:Hlb;
    [|by rewrite (get_selector_dangling _ _ Hlb) in Hb].
  rewrite (get_selector_ok _ _ _ Hla) in Ha. injection Ha as <-.
  rewrite (get_selector_ok _ _ _ Hlb) in Hb. injection Hb as <-.
  rewrite (builder_combine_eq _ _ _ _ _ _ Hla Hlb) in Hcomb.
  injection Hcomb as <- <-.
  apply lookup_lt_Some in Hla as Hlta. apply lookup_lt_Some in Hlb as Hltb.
  split; [lia|]. split; [lia|].
  pose proof (lookup_new h
    (mkObj (combined_text (selector oa) comb (selector ob)) ∅ [])) as Hc.
  split; [by rewrite (stringify_ok _ _ _ Hc)|].
  by rewrite (stringify_ok _ _ _ (attempt_all_frame _ _ _ _ Hc Hacts)).
Qed.

Lemma combine_snapshot_witness :
  let h := attempt_all
             [ABuilderFragment (KElement, "div");
              ABuilderFragment (KElement, "td")] [] in
  let h1 := h ++ [mkObj "div + td" ∅ []] in
  let acts := [AFragment 0 (KId, "main"); AFragment 1 (KClass, "odd");
               AFragment 1 (KElement, "tr"); ABuilderCombine 1 "~" 0;
               ACombine 0 2 ">" 1; AStringify 2] in
  CssSelector.stringify 0 h = (Ok "div", h) ∧
  CssSelector.stringify 1 h = (Ok "td", h) ∧
  cssSelectorBuilder.combine 0 "+" 1 h = (Ok 2%nat, h1) ∧
  Forall (λ act, target act ≠ Some 2%nat) acts ∧
  CssSelector.stringify 0 (attempt_all acts h1) =
  (Ok "div + td > td.odd", attempt_all acts h1) ∧
  CssSelector.stringify 2 (attempt_all acts h1) =
  (Ok "div + td", attempt_all acts h1).
Proof.
  intros h h1 acts.
  assert (CssSelector.stringify 0 h = (Ok "div", h)) as Ha
    by (vm_compute; reflexivity).
  assert (CssSelector.stringify 1 h = (Ok "td", h)) as Hb
    by (vm_compute; reflexivity).
  assert (cssSelectorBuilder.combine 0 "+" 1 h = (Ok 2%nat, h1)) as Hcomb
    by (vm_compute; reflexivity).
  assert (Forall (λ act, target act ≠ Some 2%nat) acts) as Hacts
    by (repeat constructor; discriminate).
  split; [exact Ha|]. split; [exact Hb|]. split; [exact Hcomb|].
  split; [exact Hacts|]. split; [vm_compute; reflexivity|].
  exact (proj2 (proj2 (proj2
    (combine_snapshot h h1 0 1 2 "+" "div" "td" acts Ha Hb Hcomb Hacts)))).
Defined.

(** ** The invariant *)

Lemma occurrences_replicate (k k' : Kind) (n : nat) :
  occurrences k' (replicate n k) = if decide (k = k') then n else 0%nat.
Proof.
  unfold occurrences. induction n as [|n IH]; cbn; [by case_decide|].
  rewrite IH. destruct (Kind_eq_dec k k'); by case_decide.
Qed.

Lemma ranks_replicate_sorted (k : Kind) (n : nat) :
  StronglySorted Z.le (ranks (replicate n k)).
Proof.
  induction n as [|n IH]; cbn; constructor; [done|].
  clear IH. induction n as [|n IH]; cbn; constructor; [lia|done].
Qed.

Lemma map_fst_replicate (c : Call) (n : nat) :
  map fst (replicate n c) = replicate n c.1.
Proof. induction n as [|n IH]; cbn; [done|]. by rewrite IH. Qed.

(** C6.  In every store reached from the empty store by client actions,
    whether they return or raise, every node has its recorded ranks in
    non-decreasing order, has each of element, id and pseudoElement at most
    once in [order], and has in [repeats] exactly the singleton kinds it
    was given, so none of them twice and no repeatable kind at all.  The
    repeatable kinds are not bounded: a node takes any number of calls of
    one of them. *)
Theorem node_invariant :
  (∀ (acts : list Action) (l : loc) (o : Obj),
     attempt_all acts [] !! l = Some o →
     Sorted Z.le (ranks (order o)) ∧
     (∀ k, singleton k = true → (occurrences k (order o) ≤ 1)%nat) ∧
     (∀ k, truthy (repeats o !! k) = true ↔
           singleton k = true ∧ k ∈ order o)) ∧
  (∀ (n : nat) (k : Kind) (v : string),
     singleton k = false →
     ∃ h' o, chain 0 (replicate n (k, v)) [CssSelector.init] = (Ok 0%nat, h') ∧
             h' !! 0%nat = Some o ∧ occurrences k (order o) = n).
Proof.
  split.
  - intros acts l o Hl.
    assert (node_inv o) as [Hs Ho Hr].
    { eapply (proj1 (Forall_lookup _ _)); [|exact Hl].
      by apply heap_inv_attempt_all. }
    split; [by apply StronglySorted_Sorted|]. by split.
  - intros n k v Hk.
    assert ([CssSelector.init] !! 0%nat = Some CssSelector.init) as Hl by done.
    destruct (chain_accepts (replicate n (k, v)) _ _ _ Hl node_inv_init)
      as [h' Hrun].
    + cbn [CssSelector.init order app]. rewrite map_fst_replicate.
      apply ranks_replicate_sorted.
    + intros k' Hk'. cbn [CssSelector.init order app].
      rewrite map_fst_replicate, occurrences_replicate.
      case_decide; [|lia]. cbn in *. congruence.
    + destruct (chain_ok_text _ _ _ _ _ _ Hl Hrun) as (_ & o' & Hl' & _ & Ho & _).
      exists h', o'. split; [done|]. split; [done|].
      rewrite Ho. cbn [CssSelector.init order app].
      rewrite map_fst_replicate, occurrences_replicate. by case_decide.
Qed.

Lemma node_invariant_witness :
  let acts := [ABuilderFragment (KId, "a"); AFragment 0 (KClass, "x");
               AFragment 0 (KId, "b"); AFragment 0 (KElement, "p");
               AFragment 0 (KClass, "y"); AFragment 0 (KPseudoElement, "z");
               AFragment 0 (KPseudoElement, "w")] in
  let o := mkObj "#a.x.y::z" (<[KPseudoElement := true]> (<[KId := true]> ∅))
             [KId; KClass; KClass; KPseudoElement] in
  attempt_all acts [] !! 0%nat = Some o ∧
  (Sorted Z.le (ranks (order o)) ∧
   (∀ k, singleton k = true → (occurrences k (order o) ≤ 1)%nat) ∧
   (∀ k, truthy (repeats o !! k) = true ↔
         singleton k = true ∧ k ∈ order o)) ∧
  (singleton KClass = false ∧
   ∃ h' o', chain 0 (replicate 4 (KClass, "c")) [CssSelector.init] =
            (Ok 0%nat, h') ∧
            h' !! 0%nat = Some o' ∧ occurrences KClass (order o') = 4%nat).
Proof.
  intros acts o.
  assert (attempt_all acts [] !! 0%nat = Some o) as Hl
    by (vm_compute; reflexivity).
  split; [exact Hl|]. split.
  - exact (proj1 node_invariant acts 0%nat o Hl).
  - split; [reflexivity|].
    exact (proj2 node_invariant 4%nat KClass "c" eq_refl).
Defined.

(** ** Nested combinations *)

Lemma construct_renders (e : Selector) (h : Heap) :
  well_ordered e →
  ∃ c ext o, construct e h = (Ok c, h ++ ext) ∧
             (h ++ ext) !! c = Some o ∧ selector o = rendering e.
Proof.
  revert h. induction e as [c cs|e1 IHl comb e2 IHr]; intros h Hwf.
  - destruct Hwf as [Hs Ho]. cbn [construct]. unfold mbind, M_bind.
    rewrite facade_ok.
    pose proof (lookup_new h (appended CssSelector.init c)) as Hn.
    destruct (chain_accepts cs _ _ _ Hn) as [h' Hrun].
    + apply node_inv_appended; [apply node_inv_init| |done].
      cbn. rewrite lookup_empty. apply andb_false_r.
    + apply Sorted_StronglySorted; [|done]. intros x y z. apply Z.le_trans.
    + done.
    + destruct (chain_ok_text _ _ _ _ _ _ Hn Hrun)
        as (_ & o' & Hl' & Ht & _ & Hh').
      rewrite insert_new in Hh'. subst h'.
      exists (length h), [o'], o'. split; [done|]. split; [done|].
      rewrite Ht. reflexivity.
  - destruct Hwf as [Hwl Hwr]. cbn [construct]. unfold mbind, M_bind.
    destruct (IHl h Hwl) as (a & ext1 & oa & -> & Hla & Hta).
    destruct (IHr (h ++ ext1) Hwr) as (b & ext2 & ob & -> & Hlb & Htb).
    rewrite (builder_combine_eq _ _ _ _ oa ob);
      [|by apply lookup_app_l_Some|done].
    eexists _, (ext1 ++ ext2 ++ [_]), _.
    split; [by rewrite <- !app_assoc|]. rewrite !app_assoc.
    split; [apply lookup_new|]. cbn. by rewrite Hta, Htb.
Qed.

(** Combinations nested to any depth: the evaluation of a well-ordered
    expression returns a handle whose [stringify()] is the text of the left
    operand, a space, the combinator, a space and the text of the right
    operand, at every level of the expression. *)
Lemma nested_combine_stringify (e : Selector) (h : Heap) :
  well_ordered e →
  ∃ c h', construct e h = (Ok c, h') ∧
          CssSelector.stringify c h' = (Ok (rendering e), h').
Proof.
  intros Hwf.
  destruct (construct_renders e h Hwf) as (c & ext & o & -> & Hl & <-).
  exists c, (h ++ ext). split; [done|]. by apply stringify_ok.
Qed.

(** C4.  For operands that are handles of the store, simple nodes or
    combinations alike, and for any combinator text whatever,
    [cssSelectorBuilder.combine(left, combinator, right)] returns a handle
    whose [stringify()] is the text of [left], a space, the combinator, a
    space, and the text of [right].  Consequently an expression that nests
    combinations to any depth evaluates to a handle whose text is built by
    that same rule at every level. *)
Theorem combine_stringify :
  (∀ (h : Heap) (left right : loc) (combinator tl tr : string),
     CssSelector.stringify left h = (Ok tl, h) →
     CssSelector.stringify right h = (Ok tr, h) →
     ∃ c h',
       cssSelectorBuilder.combine left combinator right h = (Ok c, h') ∧
       CssSelector.stringify c h' =
       (Ok (tl +:+ " " +:+ combinator +:+ " " +:+ tr), h')) ∧
  (∀ (e : Selector) (h : Heap),
     well_ordered e →
     ∃ c h', construct e h = (Ok c, h') ∧
             CssSelector.stringify c h' = (Ok (rendering e), h')).
Proof.
  split; [|apply nested_combine_stringify].
  intros h left right combinator tl tr Hleft Hright.
  unfold CssSelector.stringify in Hleft, Hright.
  destruct (h !! left) as [o1|] eqn:H1;
    [|by rewrite (get_selector_dangling _ _ H1) in Hleft].
  destruct (h !! right) as [o2|] eqn:H2;
    [|by rewrite (get_selector_dangling _ _ H2) in Hright].
  rewrite (get_selector_ok _ _ _ H1) in Hleft. injection Hleft as <-.
  rewrite (get_selector_ok _ _ _ H2) in Hright. injection Hright as <-.
  eexists _, _. split; [by apply builder_combine_eq|].
  by rewrite (stringify_ok _ _ _ (lookup_new _ _)).
Qed.

Lemma combine_stringify_witness :
  let h := attempt_all
             [ABuilderFragment (KElement, "div"); AFragment 0 (KId, "main");
              ABuilderFragment (KElement, "span"); ABuilderCombine 0 "+" 1]
             [] in
  let e := Combined
             (Compound (KElement, "div") [(KId, "main"); (KClass, "box")])
             "+"
             (Combined (Compound (KElement, "table") [(KId, "data")])
                "~"
                (Combined (Compound (KElement, "tr") [(KPseudoClass, "even")])
                   " "
                   (Compound (KElement, "td") [(KPseudoClass, "odd")]))) in
  (CssSelector.stringify 2 h = (Ok "div#main + span", h) ∧
   CssSelector.stringify 0 h = (Ok "div#main", h) ∧
   ∃ c h',
     cssSelectorBuilder.combine 2 "~" 0 h = (Ok c, h') ∧
     CssSelector.stringify c h' = (Ok "div#main + span ~ div#main", h')) ∧
  (well_ordered e ∧
   ∃ c h', construct e [] = (Ok c, h') ∧
           CssSelector.stringify c h' =
           (Ok "div#main.box + table#data ~ tr:even   td:odd", h')).
Proof.
  intros h e.
  assert (CssSelector.stringify 2 h = (Ok "div#main + span", h)) as Hleft
    by (vm_compute; reflexivity).
  assert (CssSelector.stringify 0 h = (Ok "div#main", h)) as Hright
    by (vm_compute; reflexivity).
  assert (well_ordered e) as Hwf.
  { cbn. repeat split;
      try (intros [] Hk; cbn in *; first [lia | discriminate]);
      repeat first [apply Sorted_nil | apply Sorted_cons
                   | apply HdRel_nil | apply HdRel_cons | lia]. }
  split.
  - split; [exact Hleft|]. split; [exact Hright|].
    exact (proj1 combine_stringify h 2%nat 0%nat "~" _ _ Hleft Hright).
  - split; [exact Hwf|].
    exact (proj2 combine_stringify e [] Hwf).
Defined.

(** * Further properties of the builder *)

(** ** Objects over a run of actions *)

Lemma attempt_all_lookup (acts : list Action) (h : Heap) (l : loc) (o : Obj) :
  h !! l = Some o →
  ∃ o', attempt_all acts h !! l = Some o' ∧ rtc obj_step o o'.
Proof.
  revert h o. induction acts as [|a acts IH]; intros h o Hl.
  - by exists o.
  - cbn. destruct (attempt_lookup a h l o Hl) as (o1 & Hl1 & Hstep).
    destruct (IH _ _ Hl1) as (o2 & Hl2 & Hsteps).
    exists o2. split; [done|]. by eapply rtc_l.
Qed.

(** The array [order] only grows. *)
Lemma order_step (o o' : Obj) (k : Kind) :
  obj_step o o' → k ∈ order o → k ∈ order o'.
Proof.
  intros [|c _ _|s] Hk; [done| |done]. cbn. apply elem_of_app. by left.
Qed.

Lemma order_steps (o o' : Obj) (k : Kind) :
  rtc obj_step o o' → k ∈ order o → k ∈ order o'.
Proof. induction 1; [done|]. eauto using order_step. Qed.

(** A call whose rank is below the rank of a fragment the node holds is
    refused; for a repeatable kind the error is the order error. *)
Lemma lower_rank_raises (h : Heap) (l : loc) (o : Obj) (k k' : Kind)
    (v' : string) :
  h !! l = Some o → k ∈ order o → orderValue k' < orderValue k →
  ∃ e, invoke l (k', v') h = (Throw e, h) ∧
       (singleton k' = false → e = OrderViolationError).
Proof.
  intros Hl Hk Hlt. rewrite (invoke_eq _ _ _ _ Hl). cbn [fst snd].
  assert (passes k' (order o) = false) as ->.
  { apply passes_out_of_order, Exists_exists. exists k.
    by split. }
  destruct (singleton k') eqn:Hs; cbn [andb].
  - destruct (truthy (repeats o !! k')); eexists; by split.
  - eexists. by split.
Qed.

(** ** The facade *)


(** X2.  [cssSelectorBuilder.combine] does not touch its operands: every
    object the store held keeps its text, its [repeats] record and its
    [order] array; exactly one object is allocated, and the handle returned
    is the handle of that new object. *)
Theorem combine_leaves_operands (h h1 : Heap) (s1 s2 c : loc) (comb : string)
    (Hcomb : cssSelectorBuilder.combine s1 comb s2 h = (Ok c, h1)) :
  h !! c = None ∧
  length h1 = S (length h) ∧
  (∀ l o, h !! l = Some o → h1 !! l = Some o).
Proof.
  destruct (builder_combine_inv _ _ _ _ _ _ Hcomb) as (-> & t & ->).
  split; [by apply lookup_ge_None_2|].
  split; [rewrite length_app; cbn; lia|].
  intros l o Hl. by apply lookup_app_l_Some.
Qed.

Lemma combine_leaves_operands_witness :
  let h := attempt_all
             [ABuilderFragment (KElement, "div");
              ABuilderFragment (KId, "x")] [] in
  let h1 := h ++ [mkObj "div > #x" ∅ []] in
  cssSelectorBuilder.combine 0 ">" 1 h = (Ok 2%nat, h1) ∧
  h !! 2%nat = None ∧
  length h1 = S (length h) ∧
  (∀ l o, h !! l = Some o → h1 !! l = Some o).
Proof.
  intros h h1.
  assert (cssSelectorBuilder.combine 0 ">" 1 h = (Ok 2%nat, h1)) as Hcomb
    by (vm_compute; reflexivity).
  split; [exact Hcomb|].
  exact (combine_leaves_operands h h1 0 1 2 ">" Hcomb).
Defined.

(** ** Which calls a node accepts *)

Lemma in_order_or_out (k : Kind) (ks : list Kind) :
  in_order k ks ↔ ¬ out_of_order k ks.
Proof.
  rewrite <- passes_in_order, <- passes_out_of_order.
  by destruct (passes k ks).
Qed.

(** X3.  On a node that holds the invariant the outcome of a fragment call
    tells its cause, in both directions: the call returns exactly when no
    appended rank is above the rank of the kind and the kind is not a
    singleton kind appended before; it raises the duplicate error exactly
    when the kind is a singleton kind appended before; it raises the order
    error exactly when that is not so and some appended rank is above the
    rank of the kind. *)
Theorem fragment_outcome (h : Heap) (l : loc) (o : Obj) (k : Kind)
    (v : string)
    (Hl : h !! l = Some o) (Hinv : node_inv o) :
  ((∃ h1, invoke l (k, v) h = (Ok l, h1)) ↔
   in_order k (order o) ∧ ¬ (singleton k = true ∧ k ∈ order o)) ∧
  (invoke l (k, v) h = (Throw DuplicateFragmentError, h) ↔
   singleton k = true ∧ k ∈ order o) ∧
  (invoke l (k, v) h = (Throw OrderViolationError, h) ↔
   out_of_order k (order o) ∧ ¬ (singleton k = true ∧ k ∈ order o)).
Proof.
  rewrite (invoke_eq _ _ _ _ Hl). cbn [fst snd].
  rewrite <- (duplicate_test o k Hinv).
  rewrite <- passes_in_order, <- passes_out_of_order.
  destruct (singleton k && truthy (repeats o !! k));
    destruct (passes k (order o));
    (split; [|split]); split; intros H;
    lazymatch type of H with
    | ex _ => first [done | by destruct H as [h1 [=]]]
    | _ ∧ _ =>
        first [done | by eexists | by destruct H as [_ []]
              | by destruct H as [[=] _]]
    | _ => first [done | discriminate H]
    end.
Qed.

Lemma fragment_outcome_witness :
  let h := store_after (KId, "a") [(KClass, "x")] in
  let o := mkObj "#a.x" (<[KId := true]> ∅) [KId; KClass] in
  h !! 0%nat = Some o ∧ node_inv o ∧
  (in_order KAttr (order o) ∧
   ¬ (singleton KAttr = true ∧ KAttr ∈ order o) ∧
   ∃ h1, invoke 0 (KAttr, "t") h = (Ok 0%nat, h1)) ∧
  (invoke 0 (KId, "b") h = (Throw DuplicateFragmentError, h) ∧
   singleton KId = true ∧ KId ∈ order o) ∧
  (invoke 0 (KElement, "p") h = (Throw OrderViolationError, h) ∧
   out_of_order KElement (order o) ∧
   ¬ (singleton KElement = true ∧ KElement ∈ order o)).
Proof.
  intros h o.
  assert (h !! 0%nat = Some o) as Hl by (vm_compute; reflexivity).
  assert (node_inv o) as Hinv by exact (store_after_inv _ _ _ _ Hl).
  assert (in_order KAttr (order o)) as Hin
    by (repeat constructor; cbn; lia).
  assert (¬ (singleton KAttr = true ∧ KAttr ∈ order o)) as Hnd
    by (intros [[=] _]).
  assert (invoke 0 (KId, "b") h = (Throw DuplicateFragmentError, h)) as Hdup
    by (vm_compute; reflexivity).
  assert (invoke 0 (KElement, "p") h = (Throw OrderViolationError, h)) as Hord
    by (vm_compute; reflexivity).
  split; [exact Hl|]. split; [exact Hinv|]. split; [|split].
  - split; [exact Hin|]. split; [exact Hnd|].
    exact (proj2 (proj1 (fragment_outcome h 0 o KAttr "t" Hl Hinv))
             (conj Hin Hnd)).
  - split; [exact Hdup|].
    exact (proj1 (proj1 (proj2 (fragment_outcome h 0 o KId "b" Hl Hinv)))
             Hdup).
  - split; [exact Hord|].
    exact (proj1 (proj2 (proj2 (fragment_outcome h 0 o KElement "p" Hl Hinv)))
             Hord).
Defined.

(** X4.  On a node that holds the invariant, [element(v)] returns exactly
    when nothing was appended to the node yet: an element fragment can only
    be the first fragment of a node. *)
Theorem element_only_first (h : Heap) (l : loc) (o : Obj) (v : string)
    (Hl : h !! l = Some o) (Hinv : node_inv o) :
  (∃ h1, invoke l (KElement, v) h = (Ok l, h1)) ↔ order o = [].
Proof.
  rewrite (invoke_eq _ _ _ _ Hl). cbn [fst snd singleton andb]. split.
  - intros [h1 Hrun].
    destruct (truthy (repeats o !! KElement)) eqn:Hflag; [done|].
    destruct (passes KElement (order o)) eqn:Hp; [|done].
    destruct (order o) as [|el ks] eqn:Hord; [done|]. exfalso.
    apply passes_in_order, Forall_cons in Hp as [Hel _].
    assert (el = KElement) as -> by (destruct el; cbn in Hel; (done || lia)).
    apply not_true_iff_false in Hflag. apply Hflag.
    apply (inv_seen _ Hinv). split; [done|]. rewrite Hord. by left.
  - intros Hord.
    assert (truthy (repeats o !! KElement) = false) as ->.
    { apply not_true_is_false. intros [_ Hin]%(inv_seen _ Hinv).
      rewrite Hord in Hin. by apply elem_of_nil in Hin. }
    rewrite Hord. cbn. by eexists.
Qed.

Lemma element_only_first_witness :
  let h := attempt_all
             [ABuilderFragment (KClass, "c"); ABuilderCombine 0 "+" 0] [] in
  let o := mkObj ".c + .c" ∅ [] in
  h !! 1%nat = Some o ∧ node_inv o ∧ order o = [] ∧
  ∃ h1, invoke 1 (KElement, "p") h = (Ok 1%nat, h1).
Proof.
  intros h o.
  assert (h !! 1%nat = Some o) as Hl by (vm_compute; reflexivity).
  assert (node_inv o) as Hinv.
  { eapply (proj1 (Forall_lookup _ _)); [|exact Hl].
    by apply heap_inv_attempt_all. }
  split; [exact Hl|]. split; [exact Hinv|]. split; [reflexivity|].
  exact (proj2 (element_only_first h 1 o "p" Hl Hinv) eq_refl).
Defined.

Lemma passes_last (k : Kind) (ks : list Kind) :
  StronglySorted Z.le (ranks ks) →
  passes k ks =
  match last ks with
  | Some el => orderValue el <=? orderValue k
  | None => true
  end.
Proof.
  destruct ks as [|el ks _] using rev_ind; [done|].
  rewrite last_snoc, ranks_snoc. intros Hs.
  apply StronglySorted_app in Hs as (Hle & _ & _).
  destruct (orderValue el <=? orderValue k) eqn:E.
  - apply Z.leb_le in E. apply passes_in_order, Forall_app. split.
    + apply Forall_forall. intros x Hx.
      transitivity (orderValue el); [|done].
      apply Hle; [by apply list_elem_of_fmap_2|by left].
    + by repeat constructor.
  - apply Z.leb_gt in E. apply passes_out_of_order, Exists_app.
    right. by left.
Qed.

(** X5.  On a node that holds the invariant the loop of [checkOrder] over
    the whole array [order] decides what a comparison with its last entry
    alone decides: the answer is true on an empty array, and otherwise it
    is true exactly when the rank of the last appended kind is not above
    the rank asked for. *)
Theorem checkOrder_last (h : Heap) (l : loc) (o : Obj) (k : Kind)
    (Hl : h !! l = Some o) (Hinv : node_inv o) :
  CssSelector.checkOrder l k h =
  (Ok match last (order o) with
      | Some el => orderValue el <=? orderValue k
      | None => true
      end, h).
Proof.
  rewrite (checkOrder_ok _ _ _ Hl).
  by rewrite <- (passes_last k (order o) (inv_sorted _ Hinv)).
Qed.

Lemma checkOrder_last_witness :
  let h := store_after (KElement, "a") [(KClass, "x"); (KAttr, "y")] in
  let o := mkObj "a.x[y]" (<[KElement := true]> ∅) [KElement; KClass; KAttr] in
  h !! 0%nat = Some o ∧ node_inv o ∧
  last (order o) = Some KAttr ∧
  CssSelector.checkOrder 0 KClass h = (Ok false, h) ∧
  CssSelector.checkOrder 0 KAttr h = (Ok true, h).
Proof.
  intros h o.
  assert (h !! 0%nat = Some o) as Hl by (vm_compute; reflexivity).
  assert (node_inv o) as Hinv by exact (store_after_inv _ _ _ _ Hl).
  split; [exact Hl|]. split; [exact Hinv|]. split; [reflexivity|].
  split.
  - exact (checkOrder_last h 0 o KClass Hl Hinv).
  - exact (checkOrder_last h 0 o KAttr Hl Hinv).
Defined.

(** ** Ranks only go up *)

Lemma accepted_then_member (h h1 : Heap) (l l' : loc) (c : Call) :
  invoke l c h = (Ok l', h1) →
  ∃ o1, h1 !! l = Some o1 ∧ c.1 ∈ order o1 ∧
        (singleton c.1 = true → truthy (repeats o1 !! c.1) = true).
Proof.
  intros Hrun. destruct (h !! l) as [o|] eqn:Hl;
    [|by rewrite (invoke_dangling _ _ _ Hl) in Hrun].
  rewrite (invoke_eq _ _ _ _ Hl) in Hrun.
  destruct (singleton c.1 && truthy (repeats o !! c.1)); [done|].
  destruct (passes c.1 (order o)); [|done]. injection Hrun as <- <-.
  exists (appended o c). split; [by eapply lookup_updated|]. cbn. split.
  - apply elem_of_app. right. by left.
  - intros ->. by rewrite lookup_insert_eq.
Qed.

(** X6.  Once a call of kind [k] returned on a node, every later call on
    that node of a kind of strictly lower rank raises, whatever the client
    did in between, caught errors included; for the repeatable kinds the
    error raised is the order error.  The store is left as it was. *)
Theorem rank_ratchet (h h1 : Heap) (l l' : loc) (k k' : Kind) (v v' : string)
    (acts : list Action)
    (Hrun : invoke l (k, v) h = (Ok l', h1))
    (Hlt : orderValue k' < orderValue k) :
  ∃ e, invoke l (k', v') (attempt_all acts h1) =
       (Throw e, attempt_all acts h1) ∧
       (singleton k' = false → e = OrderViolationError).
Proof.
  destruct (accepted_then_member _ _ _ _ _ Hrun) as (o1 & Hl1 & Hk & _).
  destruct (attempt_all_lookup acts _ _ _ Hl1) as (o2 & Hl2 & Hsteps).
  eapply lower_rank_raises; [done| |done].
  by eapply order_steps.
Qed.

Lemma rank_ratchet_witness :
  let h := store_after (KElement, "a") [] in
  let h1 := (invoke 0 (KAttr, "x") h).2 in
  let acts := [AFragment 0 (KPseudoClass, "p"); AFragment 0 (KId, "i");
               ABuilderCombine 0 "+" 0; ACombine 0 1 ">" 1] in
  invoke 0 (KAttr, "x") h = (Ok 0%nat, h1) ∧
  orderValue KClass < orderValue KAttr ∧
  ∃ e, invoke 0 (KClass, "c") (attempt_all acts h1) =
       (Throw e, attempt_all acts h1) ∧
       (singleton KClass = false → e = OrderViolationError).
Proof.
  intros h h1 acts.
  assert (invoke 0 (KAttr, "x") h = (Ok 0%nat, h1)) as Hrun
    by (vm_compute; reflexivity).
  assert (orderValue KClass < orderValue KAttr) as Hlt by (cbn; lia).
  split; [exact Hrun|]. split; [exact Hlt|].
  exact (rank_ratchet h h1 0 0 KAttr KClass "x" "c" acts Hrun Hlt).
Defined.

(** X7.  A pseudo-element ends a node: once [pseudoElement(v)] returned on
    a node, every later fragment call on that node raises, of whatever kind
    and whatever the client did in between.  A second [pseudoElement] raises
    the duplicate error, and [class], [attr] and [pseudoClass] raise the
    order error. *)
Theorem pseudoElement_is_last (h h1 : Heap) (l l' : loc) (v : string)
    (acts : list Action) (k' : Kind) (v' : string)
    (Hrun : invoke l (KPseudoElement, v) h = (Ok l', h1)) :
  ∃ e, invoke l (k', v') (attempt_all acts h1) =
       (Throw e, attempt_all acts h1) ∧
       (k' = KPseudoElement → e = DuplicateFragmentError) ∧
       (singleton k' = false → e = OrderViolationError).
Proof.
  destruct (accepted_then_member _ _ _ _ _ Hrun) as (o1 & Hl1 & Hk & Hflag).
  destruct (decide (k' = KPseudoElement)) as [->|Hne].
  - destruct (flag_attempt_all acts _ _ _ KPseudoElement Hl1 (Hflag eq_refl))
      as (o2 & Hl2 & Hflag2).
    exists DuplicateFragmentError.
    rewrite (invoke_eq _ _ _ _ Hl2). cbn [fst snd singleton andb].
    rewrite Hflag2. by repeat split.
  - destruct (attempt_all_lookup acts _ _ _ Hl1) as (o2 & Hl2 & Hsteps).
    destruct (lower_rank_raises _ _ _ KPseudoElement k' v' Hl2)
      as (e & He & Hrep).
    + by eapply order_steps.
    + destruct k'; cbn; (done || lia).
    + exists e. by repeat split.
Qed.

Lemma pseudoElement_is_last_witness :
  let h := store_after (KId, "a") [] in
  let h1 := (invoke 0 (KPseudoElement, "after") h).2 in
  let acts := [AFragment 0 (KClass, "c"); ABuilderFragment (KElement, "p");
               ACombine 0 1 "~" 1] in
  invoke 0 (KPseudoElement, "after") h = (Ok 0%nat, h1) ∧
  (∃ e, invoke 0 (KPseudoClass, "hover") (attempt_all acts h1) =
        (Throw e, attempt_all acts h1) ∧
        (KPseudoClass = KPseudoElement → e = DuplicateFragmentError) ∧
        (singleton KPseudoClass = false → e = OrderViolationError)) ∧
  (∃ e, invoke 0 (KPseudoElement, "before") (attempt_all acts h1) =
        (Throw e, attempt_all acts h1) ∧
        (KPseudoElement = KPseudoElement → e = DuplicateFragmentError) ∧
        (singleton KPseudoElement = false → e = OrderViolationError)).
Proof.
  intros h h1 acts.
  assert (invoke 0 (KPseudoElement, "after") h = (Ok 0%nat, h1)) as Hrun
    by (vm_compute; reflexivity).
  split; [exact Hrun|]. split.
  - exact (pseudoElement_is_last h h1 0 0 "after" acts KPseudoClass "hover"
             Hrun).
  - exact (pseudoElement_is_last h h1 0 0 "after" acts KPseudoElement "before"
             Hrun).
Defined.

(** ** The method [combine] on a node that already holds fragments *)

(** X8.  Called on an existing node, [this.combine(s1, comb, s2)] returns
    [this] and never throws.  It replaces the text of [this] by the texts
    the operands had before the call joined by the combinator, also when an
    operand is [this] itself; it keeps the [repeats] record and the [order]
    array of [this], so every fragment call is accepted or refused after it
    exactly as before it; and it writes to no other object. *)
Theorem combine_method_overwrites (h : Heap) (this s1 s2 : loc)
    (comb : string) (o o1 o2 : Obj)
    (Hthis : h !! this = Some o)
    (Hs1 : h !! s1 = Some o1)
    (Hs2 : h !! s2 = Some o2) :
  ∃ h',
    CssSelector.combine this s1 comb s2 h = (Ok this, h') ∧
    CssSelector.stringify this h' =
    (Ok (selector o1 +:+ " " +:+ comb +:+ " " +:+ selector o2), h') ∧
    (∀ c, (invoke this c h').1 = (invoke this c h).1) ∧
    (∀ l, l ≠ this → h' !! l = h !! l).
Proof.
  eexists. split; [by apply combine_eq|].
  pose proof (lookup_updated _ _ _ Hthis
    (mkObj (selector o1 +:+ " " +:+ comb +:+ " " +:+ selector o2)
       (repeats o) (order o))) as Hl'.
  split; [by rewrite (stringify_ok _ _ _ Hl')|]. split.
  - intros c. rewrite (invoke_eq _ _ _ _ Hl'), (invoke_eq _ _ _ _ Hthis).
    cbn [repeats order].
    destruct (singleton c.1 && truthy (repeats o !! c.1)); [done|].
    by destruct (passes c.1 (order o)).
  - intros l Hne. by rewrite list_lookup_insert_ne.
Qed.

Lemma combine_method_overwrites_witness :
  let h := store_after (KElement, "a") [(KClass, "b")] in
  let o := mkObj "a.b" (<[KElement := true]> ∅) [KElement; KClass] in
  h !! 0%nat = Some o ∧
  ∃ h',
    CssSelector.combine 0 0 "+" 0 h = (Ok 0%nat, h') ∧
    CssSelector.stringify 0 h' = (Ok "a.b + a.b", h') ∧
    (∀ c, (invoke 0 c h').1 = (invoke 0 c h).1) ∧
    (∀ l, l ≠ 0%nat → h' !! l = h !! l).
Proof.
  intros h o.
  assert (h !! 0%nat = Some o) as Hl by (vm_compute; reflexivity).
  split; [exact Hl|].
  exact (combine_method_overwrites h 0 0 0 "+" o o o Hl Hl Hl).
Defined.

(** ** Nodes do not share state *)

(** X9.  A fragment call writes to the node it is made on and to nothing
    else: whether it returns or raises, every other handle denotes the same
    object after the call as before, and no object is allocated. *)
Theorem fragment_call_isolated (h : Heap) (l l' : loc) (c : Call)
    (Hne : l' ≠ l) :
  (invoke l c h).2 !! l' = h !! l' ∧
  length (invoke l c h).2 = length h.
Proof.
  rewrite <- attempt_fragment.
  destruct (attempt_cases (AFragment l c) h) as [|l0 o0 o0' Ht _ _|o' Ht _].
  - done.
  - injection Ht as <-. by rewrite list_lookup_insert_ne, length_insert.
  - done.
Qed.

Lemma fragment_call_isolated_witness :
  let h := attempt_all
             [ABuilderFragment (KElement, "a");
              ABuilderFragment (KElement, "b")] [] in
  1%nat ≠ 0%nat ∧
  invoke 0 (KClass, "x") h =
  (Ok 0%nat, [mkObj "a.x" (<[KElement := true]> ∅) [KElement; KClass];
              mkObj "b" (<[KElement := true]> ∅) [KElement]]) ∧
  (invoke 0 (KClass, "x") h).2 !! 1%nat = h !! 1%nat ∧
  length (invoke 0 (KClass, "x") h).2 = length h.
Proof.
  intros h.
  assert (1%nat ≠ 0%nat) as Hne by lia.
  split; [exact Hne|]. split; [vm_compute; reflexivity|].
  exact (fragment_call_isolated h 0 1 (KClass, "x") Hne).
Defined.

(** ** Chains that return, and chains that do not *)

Lemma chain_node_inv (cs : list Call) (h h' : Heap) (l l' : loc) (o : Obj) :
  h !! l = Some o → node_inv o → chain l cs h = (Ok l', h') →
  ∃ o', h' !! l = Some o' ∧ node_inv o'.
Proof.
  revert h o. induction cs as [|c cs IH]; intros h o Hl Hinv Hrun.
  - cbn in Hrun. injection Hrun as <- <-. by exists o.
  - cbn [chain] in Hrun. unfold mbind, M_bind in Hrun.
    rewrite (invoke_eq _ _ _ _ Hl) in Hrun.
    destruct (singleton c.1 && truthy (repeats o !! c.1)) eqn:Hd; [done|].
    destruct (passes c.1 (order o)) eqn:Hp; [|done].
    apply IH with (o := appended o c) in Hrun as (o' & Hl' & Hinv');
      [|by eapply lookup_updated|by apply node_inv_appended].
    by exists o'.
Qed.

(** X10.  The condition of C1 is also necessary: when a chain started
    through the facade returns, the ranks of its calls never decrease, no
    singleton kind occurs twice among them, and the text returned is the
    concatenation of their templates. *)
Theorem build_only_if_well_ordered (h h' : Heap) (c : Call) (cs : list Call)
    (t : string)
    (Hrun : build c cs h = (Ok t, h')) :
  Sorted Z.le (ranks (map fst (c :: cs))) ∧
  (∀ k, singleton k = true → (occurrences k (map fst (c :: cs)) ≤ 1)%nat) ∧
  t = concat_text (map template (c :: cs)).
Proof.
  rewrite build_eq in Hrun. unfold mbind, M_bind, CssSelector.new in Hrun.
  pose proof (lookup_new h CssSelector.init) as Hn.
  destruct (chain (length h) (c :: cs) (h ++ [CssSelector.init]))
    as [[l'| |] h1] eqn:Hchain; [|done..].
  destruct (chain_ok_text _ _ _ _ _ _ Hn Hchain)
    as (-> & o' & Hl' & Ht & Ho & _).
  destruct (chain_node_inv _ _ _ _ _ _ Hn node_inv_init Hchain)
    as (o'' & Hl'' & [Hs Hone _]).
  assert (o'' = o') as -> by congruence.
  rewrite (stringify_ok _ _ _ Hl') in Hrun. injection Hrun as <- <-.
  rewrite Ho in Hs, Hone. cbn [CssSelector.init order app] in Hs, Hone.
  split; [by apply StronglySorted_Sorted|]. split; [done|].
  by rewrite Ht.
Qed.

Lemma build_only_if_well_ordered_witness :
  let c : Call := (KId, "main") in
  let cs : list Call := [(KClass, "a"); (KClass, "b"); (KPseudoClass, "p")] in
  let h' := [mkObj "#main.a.b:p" (<[KId := true]> ∅)
               [KId; KClass; KClass; KPseudoClass]] in
  build c cs [] = (Ok "#main.a.b:p", h') ∧
  Sorted Z.le (ranks (map fst (c :: cs))) ∧
  (∀ k, singleton k = true → (occurrences k (map fst (c :: cs)) ≤ 1)%nat) ∧
  "#main.a.b:p" = concat_text (map template (c :: cs)).
Proof.
  intros c cs h'.
  assert (build c cs [] = (Ok "#main.a.b:p", h')) as Hrun
    by (vm_compute; reflexivity).
  split; [exact Hrun|].
  exact (build_only_if_well_ordered [] h' c cs _ Hrun).
Defined.

Lemma chain_app (cs1 cs2 : list Call) (h : Heap) (l : loc) :
  chain l (cs1 ++ cs2) h = (l1 ← chain l cs1; chain l1 cs2) h.
Proof.
  revert h l. induction cs1 as [|c cs1 IH]; intros h l; [done|].
  cbn [app chain]. unfold mbind, M_bind.
  destruct (invoke l c h) as [[l1| |] h1]; [|done..].
  rewrite IH. done.
Qed.

Lemma invoke_throw_store (h h' : Heap) (l : loc) (c : Call) (e : Error) :
  invoke l c h = (Throw e, h') → h' = h.
Proof.
  intros Hthrow. destruct (h !! l) as [o|] eqn:Hl.
  - rewrite (invoke_eq _ _ _ _ Hl) in Hthrow.
    destruct (singleton c.1 && truthy (repeats o !! c.1));
      [by injection Hthrow|].
    destruct (passes c.1 (order o)); [done|by injection Hthrow].
  - by rewrite (invoke_dangling _ _ _ Hl) in Hthrow.
Qed.

(** X11.  A chain stops at its first refused call: when the calls before
    it return and the call itself raises, the chain raises that error, the
    calls after it are not made, and the node keeps the text it had followed
    by the templates of the calls that returned. *)
Theorem chain_stops_at_first_error (h h1 h2 : Heap) (l l1 : loc) (o : Obj)
    (cs1 cs2 : list Call) (c : Call) (e : Error)
    (Hl : h !! l = Some o)
    (Hprefix : chain l cs1 h = (Ok l1, h1))
    (Hthrow : invoke l1 c h1 = (Throw e, h2)) :
  chain l (cs1 ++ c :: cs2) h = (Throw e, h1) ∧
  CssSelector.stringify l h1 =
  (Ok (selector o +:+ concat_text (map template cs1)), h1).
Proof.
  pose proof (invoke_throw_store _ _ _ _ _ Hthrow) as ->.
  split.
  - rewrite chain_app. unfold mbind at 1, M_bind at 1. rewrite Hprefix.
    cbn [chain]. unfold mbind, M_bind. by rewrite Hthrow.
  - destruct (chain_ok_text _ _ _ _ _ _ Hl Hprefix)
      as (_ & o' & Hl' & Ht & _ & _).
    by rewrite (stringify_ok _ _ _ Hl'), Ht.
Qed.

Lemma chain_stops_at_first_error_witness :
  let h := store_after (KElement, "a") [] in
  let o := mkObj "a" (<[KElement := true]> ∅) [KElement] in
  let h1 := [mkObj "a.b[c]" (<[KElement := true]> ∅)
               [KElement; KClass; KAttr]] in
  h !! 0%nat = Some o ∧
  chain 0 [(KClass, "b"); (KAttr, "c")] h = (Ok 0%nat, h1) ∧
  invoke 0 (KId, "d") h1 = (Throw OrderViolationError, h1) ∧
  chain 0 ([(KClass, "b"); (KAttr, "c")] ++
           (KId, "d") :: [(KPseudoClass, "e")]) h =
  (Throw OrderViolationError, h1) ∧
  CssSelector.stringify 0 h1 = (Ok "a.b[c]", h1).
Proof.
  intros h o h1.
  assert (h !! 0%nat = Some o) as Hl by (vm_compute; reflexivity).
  assert (chain 0 [(KClass, "b"); (KAttr, "c")] h = (Ok 0%nat, h1)) as Hp
    by (vm_compute; reflexivity).
  assert (invoke 0 (KId, "d") h1 = (Throw OrderViolationError, h1)) as Ht
    by (vm_compute; reflexivity).
  split; [exact Hl|]. split; [exact Hp|]. split; [exact Ht|].
  exact (chain_stops_at_first_error h h1 h1 0 0 o _ [(KPseudoClass, "e")]
           (KId, "d") OrderViolationError Hl Hp Ht).
Defined.

(** ** Nesting on the left and on the right *)

Lemma rendering_assoc (a b c : Selector) (x y : string) :
  rendering (Combined (Combined a x b) y c) =
  rendering (Combined a x (Combined b y c)).
Proof.
  cbn [rendering]. unfold combined_text. by rewrite !append_assoc.
Qed.

(** X12.  The text of a combination does not record how the combinations
    were nested: for well-ordered operands, combining [a] with [b] and the
    result with [c] gives a handle with the same text as combining [a] with
    the combination of [b] and [c]. *)
Theorem combine_nesting_same_text (a b c : Selector) (x y : string)
    (h : Heap)
    (Ha : well_ordered a) (Hb : well_ordered b) (Hc : well_ordered c) :
  ∃ l1 h1 l2 h2 t,
    construct (Combined (Combined a x b) y c) h = (Ok l1, h1) ∧
    construct (Combined a x (Combined b y c)) h = (Ok l2, h2) ∧
    CssSelector.stringify l1 h1 = (Ok t, h1) ∧
    CssSelector.stringify l2 h2 = (Ok t, h2).
Proof.
  destruct (nested_combine_stringify (Combined (Combined a x b) y c) h)
    as (l1 & h1 & Hr1 & Ht1); [by repeat split|].
  destruct (nested_combine_stringify (Combined a x (Combined b y c)) h)
    as (l2 & h2 & Hr2 & Ht2); [by repeat split|].
  exists l1, h1, l2, h2, (rendering (Combined (Combined a x b) y c)).
  split; [done|]. split; [done|]. split; [done|].
  by rewrite rendering_assoc.
Qed.

Lemma combine_nesting_same_text_witness :
  let a := Compound (KElement, "div") [(KId, "m")] in
  let b := Compound (KElement, "p") [] in
  let c := Compound (KClass, "x") [(KClass, "y")] in
  well_ordered a ∧ well_ordered b ∧ well_ordered c ∧
  ∃ l1 h1 l2 h2 t,
    construct (Combined (Combined a "+" b) "~" c) [] = (Ok l1, h1) ∧
    construct (Combined a "+" (Combined b "~" c)) [] = (Ok l2, h2) ∧
    CssSelector.stringify l1 h1 = (Ok t, h1) ∧
    CssSelector.stringify l2 h2 = (Ok t, h2).
Proof.
  intros a b c.
  assert (well_ordered a) as Ha.
  { split; [|intros [] Hk; cbn in *; first [lia | discriminate]].
    cbn. repeat first [apply Sorted_nil | apply Sorted_cons
                      | apply HdRel_nil | apply HdRel_cons | lia]. }
  assert (well_ordered b) as Hb.
  { split; [|intros [] Hk; cbn in *; first [lia | discriminate]].
    cbn. repeat first [apply Sorted_nil | apply Sorted_cons
                      | apply HdRel_nil | apply HdRel_cons | lia]. }
  assert (well_ordered c) as Hc.
  { split; [|intros [] Hk; cbn in *; first [lia | discriminate]].
    cbn. repeat first [apply Sorted_nil | apply Sorted_cons
                      | apply HdRel_nil | apply HdRel_cons | lia]. }
  split; [exact Ha|]. split; [exact Hb|]. split; [exact Hc|].
  exact (combine_nesting_same_text a b c "+" "~" [] Ha Hb Hc).
Defined.

(** ** Arguments are embedded verbatim *)

(** X13.  The argument of a fragment call is not escaped or checked, so
    the text does not determine the calls: one [class] call whose argument
    holds a dot renders the same text as two [class] calls with the
    two halves of the argument. *)
Theorem class_text_not_injective (h : Heap) (v1 v2 : string) :
  ∃ t h1 h2,
    build (KClass, v1 +:+ "." +:+ v2) [] h = (Ok t, h1) ∧
    build (KClass, v1) [(KClass, v2)] h = (Ok t, h2) ∧
    h1 ≠ h2.
Proof.
  unfold build, mbind, M_bind. rewrite !facade_ok. cbn [chain].
  unfold mbind, M_bind.
  pose proof (lookup_new h (appended CssSelector.init (KClass, v1))) as Hn.
  rewrite (invoke_accept _ _ _ _ Hn); [|done|done].
  rewrite insert_new. unfold mret, M_ret.
  rewrite !(stringify_ok _ _ _ (lookup_new _ _)).
  eexists _, _, _. split; [done|]. split.
  - cbn [appended selector template fst snd CssSelector.init].
    change ("" +:+ ?s) with s. by rewrite append_assoc.
  - intros Heq. apply app_inv_head in Heq. by injection Heq.
Qed.
